(** * Verification of the [curg_mosaic_reveal::mosaic] game contract

    A shallow embedding of [contract/sources/curg_mosaic_reveal.move]:
    the [Game] object, its five entry points and the Sui framework
    operations they call, followed by the properties of the game state
    machine. *)

From Stdlib Require Import NArith ZArith Strings.Byte Strings.String.
From stdpp Require Import base option list gmap.

Local Open Scope N_scope.

(** ** Machine data *)

(** [vector<u8>] *)
Abbreviation bytes := (list byte).

(** A byte-string literal, written [b"..."] in Move. *)
Definition bytes_of (s : string) : bytes := list_byte_of_string s.

#[global] Instance byte_eq_decision : EqDecision byte := Byte.byte_eq_dec.

(** [u64] values are kept as [N]; the operations that can overflow say so. *)
Definition u64 := N.
Definition MAX_U64 : N := 0xFFFFFFFFFFFFFFFF.

(** ** Keccak-256

    [sui::hash::keccak256] is a native function of the Sui framework.  It is
    modelled by the Keccak sponge with rate 1088, capacity 512, the original
    [pad10*1] padding (domain byte 0x01) and 32 bytes of output. *)
Module Keccak.

Definition lane := N.
Definition mask64 (x : N) : lane := N.land x MAX_U64.

Definition rotl64 (x : lane) (n : N) : lane :=
  mask64 (N.lor (N.shiftl x n) (N.shiftr x (64 - n))).

(** The state is 25 lanes; lane [(x, y)] sits at position [x + 5 * y]. *)
Definition lane_at (st : list lane) (x y : nat) : lane :=
  nth (x mod 5 + 5 * (y mod 5))%nat st 0.

Definition coords : list (nat * nat) :=
  y ← seq 0 5; x ← seq 0 5; [(x, y)].

Definition rotation_offsets : list N :=
  [ 0;  1; 62; 28; 27;
   36; 44;  6; 55; 20;
    3; 10; 43; 25; 39;
   41; 45; 15; 21;  8;
   18;  2; 61; 56; 14].

Definition round_constants : list lane :=
  [0x0000000000000001; 0x0000000000008082; 0x800000000000808A;
   0x8000000080008000; 0x000000000000808B; 0x0000000080000001;
   0x8000000080008081; 0x8000000000008009; 0x000000000000008A;
   0x0000000000000088; 0x0000000080008009; 0x000000008000000A;
   0x000000008000808B; 0x800000000000008B; 0x8000000000008089;
   0x8000000000008003; 0x8000000000008002; 0x8000000000000080;
   0x000000000000800A; 0x800000008000000A; 0x8000000080008081;
   0x8000000000008080; 0x0000000080000001; 0x8000000080008008].

Definition theta (st : list lane) : list lane :=
  let c x := fold_right N.lxor 0 (map (lane_at st x) (seq 0 5)) in
  let d x := N.lxor (c (x + 4)%nat) (rotl64 (c (x + 1)%nat) 1) in
  map (fun '(x, y) => N.lxor (lane_at st x y) (d x)) coords.

(** rho and pi together: the lane written at [(x, y)] comes from
    [(x + 3 * y, x)], rotated by the offset of its origin. *)
Definition rho_pi (st : list lane) : list lane :=
  map (fun '(x, y) =>
         let x0 := ((x + 3 * y) mod 5)%nat in
         rotl64 (lane_at st x0 x) (nth (x0 + 5 * x)%nat rotation_offsets 0))
      coords.

Definition chi (st : list lane) : list lane :=
  map (fun '(x, y) =>
         N.lxor (lane_at st x y)
                (N.ldiff (lane_at st (x + 2) y) (lane_at st (x + 1) y)))
      coords.

Definition iota (rc : lane) (st : list lane) : list lane :=
  match st with
  | [] => []
  | a :: rest => N.lxor a rc :: rest
  end.

Definition round (st : list lane) (rc : lane) : list lane :=
  iota rc (chi (rho_pi (theta st))).

Definition keccak_f (st : list lane) : list lane :=
  fold_left round round_constants st.

Definition rate : nat := 136.

Definition pad (msg : list N) : list N :=
  let q := (rate - length msg mod rate)%nat in
  match q with
  | 1%nat => msg ++ [0x81]
  | _ => msg ++ [0x01] ++ repeat 0 (q - 2) ++ [0x80]
  end.

(** Little-endian bytes to a lane and back. *)
Definition lane_of_bytes (bs : list N) : lane :=
  fold_right (fun byt acc => byt + 256 * acc) 0 bs.

Fixpoint bytes_of_lane (n : nat) (l : lane) : list N :=
  match n with
  | O => []
  | S n' => (l mod 256) :: bytes_of_lane n' (l / 256)
  end.

Fixpoint lanes_of_block (n : nat) (blk : list N) : list lane :=
  match n with
  | O => []
  | S n' => lane_of_bytes (take 8 blk) :: lanes_of_block n' (drop 8 blk)
  end.

Definition absorb_block (st : list lane) (blk : list N) : list lane :=
  keccak_f (zip_with N.lxor st (lanes_of_block 17 blk ++ repeat 0 8)).

Fixpoint absorb (fuel : nat) (st : list lane) (msg : list N) : list lane :=
  match fuel, msg with
  | S fuel', _ :: _ => absorb fuel' (absorb_block st (take rate msg)) (drop rate msg)
  | _, _ => st
  end.

Definition byte_of_N (n : N) : byte :=
  match Byte.of_N n with Some x => x | None => x00 end.

Definition digest256 (data : bytes) : bytes :=
  let msg := pad (map Byte.to_N data) in
  let st := absorb (length msg) (repeat 0 25) msg in
  map byte_of_N (flat_map (bytes_of_lane 8) (take 4 st)).

End Keccak.

Definition keccak256 (data : bytes) : bytes := Keccak.digest256 data.

Arguments keccak256 : simpl never.

(** ** Failures of a Move call *)

(** The module whose [abort] (or [assert!]) stopped the call. *)
Inductive module_name :=
  | mosaic          (* curg_mosaic_reveal::mosaic *)
  | std_option
  | std_string
  | sui_balance
  | sui_dynamic_field.

Inductive failure :=
  | MoveAbort (m : module_name) (code : u64)
  | VectorIndexOutOfBounds     (* [vector::borrow] beyond the length *)
  | ArithmeticError.           (* [u64] overflow or underflow *)

#[global] Instance module_name_eq_dec : EqDecision module_name.
Proof. solve_decision. Defined.
#[global] Instance failure_eq_dec : EqDecision failure.
Proof. solve_decision. Defined.

Inductive result (A : Type) :=
  | Ok (a : A)
  | Err (f : failure).
Arguments Ok {A} a.
Arguments Err {A} f.

(** ** Sui framework values *)

Definition address := N.

Record ID := { id_tx_hash : bytes; id_index : u64 }.

Record TxContext := {
  sender : address;
  tx_hash : bytes;
  epoch : u64;
  epoch_timestamp_ms : u64;
  ids_created : u64;
}.

Record Clock := { clock_timestamp_ms : u64 }.

Record Balance := { value : u64 }.

Record Coin := { coin_id : ID; balance : Balance }.

(** [std::string::String]: bytes known to be valid UTF-8. *)
Record MoveString := { string_bytes : bytes }.

Record Commitment := {
  submission_hash : bytes;
  timestamp_ms : u64;
}.

Record Table := {
  table_id : ID;
  entries : gmap address Commitment;
}.

Record OracleCap := { cap_id : ID }.

(** ** The contract's constants *)

Definition EGameAlreadySolved : u64 := 0.
Definition EInvalidPayment : u64 := 1.
Definition EInvalidTileIndex : u64 := 2.
Definition ETileAlreadyRevealed : u64 := 3.
Definition EIncorrectAnswer : u64 := 4.
Definition ENoCommitmentFound : u64 := 5.
Definition ECommitmentTooFresh : u64 := 6.

Definition TILE_PRICE : u64 := 1000.
Definition TOTAL_TILES : u64 := 100.

(** ** The contract's objects and events *)

Record Game := {
  uid : ID;
  creator : address;
  answer_hash : bytes;
  walrus_blob_id : MoveString;
  encrypted_tile_keys : list bytes;
  encryption_ids : list MoveString;
  decrypted_tile_keys : list (option bytes);
  pot : Balance;
  is_solved : bool;
  winner : option address;
  guess_commitments : Table;
}.

Inductive Event :=
  | GameCreated (game_id : ID)
  | TileRevealRequested (game_id : ID) (tile_index : u64) (requester : address)
  | TileRevealed (game_id : ID) (tile_index : u64) (decrypted_key : bytes)
  | GameSolved (game_id : ID) (winner : address) (prize : u64).

Inductive Object :=
  | CoinObject (c : Coin)
  | OracleCapObject (c : OracleCap).

(** Field updates of a [&mut Game]. *)
Definition set_decrypted_tile_keys (v : list (option bytes)) (g : Game) : Game :=
  {| uid := uid g; creator := creator g; answer_hash := answer_hash g;
     walrus_blob_id := walrus_blob_id g;
     encrypted_tile_keys := encrypted_tile_keys g;
     encryption_ids := encryption_ids g; decrypted_tile_keys := v;
     pot := pot g; is_solved := is_solved g; winner := winner g;
     guess_commitments := guess_commitments g |}.

Definition set_pot (v : Balance) (g : Game) : Game :=
  {| uid := uid g; creator := creator g; answer_hash := answer_hash g;
     walrus_blob_id := walrus_blob_id g;
     encrypted_tile_keys := encrypted_tile_keys g;
     encryption_ids := encryption_ids g;
     decrypted_tile_keys := decrypted_tile_keys g;
     pot := v; is_solved := is_solved g; winner := winner g;
     guess_commitments := guess_commitments g |}.

Definition set_is_solved (v : bool) (g : Game) : Game :=
  {| uid := uid g; creator := creator g; answer_hash := answer_hash g;
     walrus_blob_id := walrus_blob_id g;
     encrypted_tile_keys := encrypted_tile_keys g;
     encryption_ids := encryption_ids g;
     decrypted_tile_keys := decrypted_tile_keys g;
     pot := pot g; is_solved := v; winner := winner g;
     guess_commitments := guess_commitments g |}.

Definition set_winner (v : option address) (g : Game) : Game :=
  {| uid := uid g; creator := creator g; answer_hash := answer_hash g;
     walrus_blob_id := walrus_blob_id g;
     encrypted_tile_keys := encrypted_tile_keys g;
     encryption_ids := encryption_ids g;
     decrypted_tile_keys := decrypted_tile_keys g;
     pot := pot g; is_solved := is_solved g; winner := v;
     guess_commitments := guess_commitments g |}.

Definition set_guess_commitments (v : Table) (g : Game) : Game :=
  {| uid := uid g; creator := creator g; answer_hash := answer_hash g;
     walrus_blob_id := walrus_blob_id g;
     encrypted_tile_keys := encrypted_tile_keys g;
     encryption_ids := encryption_ids g;
     decrypted_tile_keys := decrypted_tile_keys g;
     pot := pot g; is_solved := is_solved g; winner := winner g;
     guess_commitments := v |}.

(** ** Transactions

    A call runs against the objects it borrows mutably ([refs]), the
    transaction context and the effects gathered so far.  A failure keeps the
    state reached when it was raised ([Aborted f dirty]): the ledger never
    sees it, because [commit] below restores the state from before the call,
    as the Move VM does when a transaction aborts. *)

Record Effects := {
  events : list Event;
  transferred : list (Object * address);
  shared : list Game;
  deleted : list ID;
}.

Definition no_effects : Effects :=
  {| events := []; transferred := []; shared := []; deleted := [] |}.

Record TxState (R : Type) := {
  refs : R;
  ctx : TxContext;
  effects : Effects;
}.
Arguments refs {R} _.
Arguments ctx {R} _.
Arguments effects {R} _.
Arguments Build_TxState {R} _ _ _.

Inductive outcome (R A : Type) :=
  | Done (a : A) (s : TxState R)
  | Aborted (f : failure) (dirty : TxState R).
Arguments Done {R A} a s.
Arguments Aborted {R A} f dirty.

Definition Tx (R A : Type) : Type := TxState R -> outcome R A.

Definition ret {R A} (a : A) : Tx R A := fun s => Done a s.

Definition bind {R A B} (m : Tx R A) (k : A -> Tx R B) : Tx R B :=
  fun s => match m s with
           | Done a s' => k a s'
           | Aborted f s' => Aborted f s'
           end.

Declare Scope tx_scope.
Delimit Scope tx_scope with tx.
Notation "x <- m ;; k" := (bind m (fun x => k))
  (at level 100, m at next level, k at level 200, right associativity)
  : tx_scope.
Notation "m ;; k" := (bind m (fun _ => k))
  (at level 100, k at level 200, right associativity) : tx_scope.
Local Open Scope tx_scope.

Definition abort {R A} (f : failure) : Tx R A := fun s => Aborted f s.

Definition lift {R A} (r : result A) : Tx R A :=
  match r with
  | Ok a => ret a
  | Err f => abort f
  end.

(** [assert!(cond, code)] inside module [mosaic]. *)
Definition assert_ {R} (cond : bool) (code : u64) : Tx R unit :=
  if cond then ret tt else abort (MoveAbort mosaic code).

(** Reading and writing through the [&mut] borrow. *)
Definition borrow {R} : Tx R R := fun s => Done (refs s) s.

Definition modify {R} (f : R -> R) : Tx R unit :=
  fun s => Done tt {| refs := f (refs s); ctx := ctx s; effects := effects s |}.

(** ** Sui framework operations *)

(** [tx_context::sender] *)
Definition tx_context_sender {R} : Tx R address :=
  fun s => Done (sender (ctx s)) s.

(** [object::new]: a fresh id made from the transaction digest and the number
    of ids the transaction has created, which it increments. *)
Definition fresh_id (c : TxContext) : ID :=
  {| id_tx_hash := tx_hash c; id_index := ids_created c |}.

Definition count_id (c : TxContext) : TxContext :=
  {| sender := sender c; tx_hash := tx_hash c; epoch := epoch c;
     epoch_timestamp_ms := epoch_timestamp_ms c;
     ids_created := ids_created c + 1 |}.

Definition object_new {R} : Tx R ID :=
  fun s =>
    Done (fresh_id (ctx s))
         {| refs := refs s; ctx := count_id (ctx s); effects := effects s |}.

Definition with_effects {R} (f : Effects -> Effects) : Tx R unit :=
  fun s => Done tt {| refs := refs s; ctx := ctx s; effects := f (effects s) |}.

(** The four kinds of effect a call leaves for the ledger. *)
Definition add_event (e : Event) (fx : Effects) : Effects :=
  {| events := events fx ++ [e]; transferred := transferred fx;
     shared := shared fx; deleted := deleted fx |}.

Definition add_transfer (o : Object) (recipient : address) (fx : Effects)
  : Effects :=
  {| events := events fx; transferred := transferred fx ++ [(o, recipient)];
     shared := shared fx; deleted := deleted fx |}.

Definition add_shared (g : Game) (fx : Effects) : Effects :=
  {| events := events fx; transferred := transferred fx;
     shared := shared fx ++ [g]; deleted := deleted fx |}.

Definition add_deleted (i : ID) (fx : Effects) : Effects :=
  {| events := events fx; transferred := transferred fx;
     shared := shared fx; deleted := deleted fx ++ [i] |}.

(** [event::emit] *)
Definition event_emit {R} (e : Event) : Tx R unit :=
  with_effects (add_event e).

(** [transfer::transfer] and [transfer::public_transfer]: the two differ in
    which objects the type checker lets them move, not in what they do. *)
Definition transfer {R} (o : Object) (recipient : address) : Tx R unit :=
  with_effects (add_transfer o recipient).

Definition public_transfer {R} (o : Object) (recipient : address)
  : Tx R unit :=
  with_effects (add_transfer o recipient).

(** [transfer::share_object] *)
Definition share_object {R} (g : Game) : Tx R unit :=
  with_effects (add_shared g).

(** [object::delete] *)
Definition object_delete {R} (i : ID) : Tx R unit :=
  with_effects (add_deleted i).

(** [clock::timestamp_ms] *)
Definition clock_timestamp (c : Clock) : u64 := clock_timestamp_ms c.

(** [vector::borrow] and [vector::borrow_mut]: the element at index [i], or
    a failure of the vector instruction when [i] is not below the length. *)
Definition vector_borrow {A} (v : list A) (i : u64) : result A :=
  match v !! N.to_nat i with
  | Some x => Ok x
  | None => Err VectorIndexOutOfBounds
  end.

(** Writing through the reference obtained by [vector::borrow_mut v i]. *)
Definition vector_write {A} (v : list A) (i : u64) (x : A) : list A :=
  <[N.to_nat i := x]> v.

Definition vector_length {A} (v : list A) : u64 := N.of_nat (length v).

(** [option::is_none] *)
Definition option_is_none {A} (o : option A) : bool :=
  match o with None => true | Some _ => false end.

(** [option::fill] aborts with [EOPTION_IS_SET] on a full option. *)
Definition EOPTION_IS_SET : u64 := 0x40000.

Definition option_fill {A} (o : option A) (x : A) : result (option A) :=
  match o with
  | None => Ok (Some x)
  | Some _ => Err (MoveAbort std_option EOPTION_IS_SET)
  end.

(** [balance::value], [balance::zero], [balance::join], [balance::split] *)
Definition balance_value (bal : Balance) : u64 := value bal.

Definition balance_zero : Balance := {| value := 0 |}.

Definition balance_join (self other : Balance) : result Balance :=
  if value self + value other <=? MAX_U64
  then Ok {| value := value self + value other |}
  else Err ArithmeticError.

Definition ENotEnough : u64 := 2.

(** The result is the part split off and what is left in [self]. *)
Definition balance_split (self : Balance) (amount : u64)
  : result (Balance * Balance) :=
  if amount <=? value self
  then Ok ({| value := amount |}, {| value := value self - amount |})
  else Err (MoveAbort sui_balance ENotEnough).

(** [coin::value] *)
Definition coin_value (c : Coin) : u64 := balance_value (balance c).

(** [coin::into_balance]: the coin's id is deleted, its balance returned. *)
Definition coin_into_balance {R} (c : Coin) : Tx R Balance :=
  object_delete (coin_id c);;
  ret (balance c).

(** [coin::take]: the new coin and what is left of the balance. *)
Definition coin_take {R} (bal : Balance) (amount : u64) : Tx R (Coin * Balance) :=
  i <- object_new;;
  parts <- lift (balance_split bal amount);;
  ret ({| coin_id := i; balance := parts.1 |}, parts.2).

(** [table::new], [table::contains], [table::add], [table::remove] *)
Definition table_new {R} : Tx R Table :=
  i <- object_new;;
  ret {| table_id := i; entries := ∅ |}.

Definition table_contains (t : Table) (k : address) : bool :=
  bool_decide (is_Some (entries t !! k)).

Definition EFieldAlreadyExists : u64 := 0.
Definition EFieldDoesNotExist : u64 := 1.

Definition table_add (t : Table) (k : address) (v : Commitment) : result Table :=
  match entries t !! k with
  | Some _ => Err (MoveAbort sui_dynamic_field EFieldAlreadyExists)
  | None => Ok {| table_id := table_id t; entries := <[k := v]> (entries t) |}
  end.

(** The result is the entry removed and the table without it. *)
Definition table_remove (t : Table) (k : address) : result (Commitment * Table) :=
  match entries t !! k with
  | Some v => Ok (v, {| table_id := table_id t; entries := delete k (entries t) |})
  | None => Err (MoveAbort sui_dynamic_field EFieldDoesNotExist)
  end.

(** [string::utf8] aborts with [EINVALID_UTF8] unless the bytes are
    well-formed UTF-8 (no overlong forms, no surrogates, at most U+10FFFF). *)
Definition in_range (lo hi : N) (x : byte) : bool :=
  (lo <=? Byte.to_N x) && (Byte.to_N x <=? hi).

Fixpoint internal_check_utf8 (bs : bytes) : bool :=
  match bs with
  | [] => true
  | b0 :: r0 =>
    if in_range 0x00 0x7F b0 then internal_check_utf8 r0 else
    match r0 with
    | [] => false
    | b1 :: r1 =>
      if in_range 0xC2 0xDF b0
      then in_range 0x80 0xBF b1 && internal_check_utf8 r1 else
      match r1 with
      | [] => false
      | b2 :: r2 =>
        if in_range 0xE0 0xEF b0 then
          (if in_range 0xE0 0xE0 b0 then in_range 0xA0 0xBF b1
           else if in_range 0xED 0xED b0 then in_range 0x80 0x9F b1
           else in_range 0x80 0xBF b1)
          && in_range 0x80 0xBF b2 && internal_check_utf8 r2 else
        match r2 with
        | [] => false
        | b3 :: r3 =>
          if in_range 0xF0 0xF4 b0 then
            (if in_range 0xF0 0xF0 b0 then in_range 0x90 0xBF b1
             else if in_range 0xF4 0xF4 b0 then in_range 0x80 0x8F b1
             else in_range 0x80 0xBF b1)
            && in_range 0x80 0xBF b2 && in_range 0x80 0xBF b3
            && internal_check_utf8 r3
          else false
        end
      end
    end
  end.

Definition EINVALID_UTF8 : u64 := 1.

Definition string_utf8 (bs : bytes) : result MoveString :=
  if internal_check_utf8 bs
  then Ok {| string_bytes := bs |}
  else Err (MoveAbort std_string EINVALID_UTF8).

(** The counted loop [let mut i = 0; while (i < n) { body; i = i + 1 }]. *)
Fixpoint while_from {S} (count : nat) (i : u64)
    (body : u64 -> S -> result S) (acc : S) : result S :=
  match count with
  | O => Ok acc
  | Datatypes.S count' =>
      match body i acc with
      | Ok acc' => while_from count' (i + 1) body acc'
      | Err f => Err f
      end
  end.

Definition while_below {S} (n : u64) (body : u64 -> S -> result S) (acc : S)
  : result S :=
  while_from (N.to_nat n) 0 body acc.

(** ** The contract: [curg_mosaic_reveal::mosaic] *)

(** [init] *)
Definition init : Tx unit unit :=
  i <- object_new;;
  recipient <- tx_context_sender;;
  transfer (OracleCapObject {| cap_id := i |}) recipient.

(** [create_game] *)
Definition create_game (answer_hash : bytes) (walrus_blob_id : MoveString)
    (encrypted_keys : list bytes) (encryption_ids_bytes : list bytes)
  : Tx unit unit :=
  assert_ (vector_length encrypted_keys =? TOTAL_TILES) EInvalidPayment;;
  assert_ (vector_length encryption_ids_bytes =? TOTAL_TILES) EInvalidPayment;;
  encryption_ids <- lift (while_below TOTAL_TILES (fun i ids =>
      match vector_borrow encryption_ids_bytes i with
      | Ok id_bytes =>
          match string_utf8 id_bytes with
          | Ok id_string => Ok (ids ++ [id_string])
          | Err f => Err f
          end
      | Err f => Err f
      end) []);;
  decrypted_keys <- lift (while_below TOTAL_TILES (fun _ keys =>
      Ok (keys ++ [None])) []);;
  i <- object_new;;
  creator <- tx_context_sender;;
  commitments <- table_new;;
  let game :=
    {| uid := i;
       creator := creator;
       answer_hash := answer_hash;
       walrus_blob_id := walrus_blob_id;
       encrypted_tile_keys := encrypted_keys;
       encryption_ids := encryption_ids;
       decrypted_tile_keys := decrypted_keys;
       pot := balance_zero;
       is_solved := false;
       winner := None;
       guess_commitments := commitments |} in
  event_emit (GameCreated (uid game));;
  share_object game.

(** [request_reveal] *)
Definition request_reveal (tile_index : u64) (payment : Coin) : Tx Game unit :=
  game <- borrow;;
  assert_ (negb (is_solved game)) EGameAlreadySolved;;
  assert_ (coin_value payment =? TILE_PRICE) EInvalidPayment;;
  assert_ (tile_index <? TOTAL_TILES) EInvalidTileIndex;;
  tile_option <- lift (vector_borrow (decrypted_tile_keys game) tile_index);;
  assert_ (option_is_none tile_option) ETileAlreadyRevealed;;
  paid <- coin_into_balance payment;;
  joined <- lift (balance_join (pot game) paid);;
  modify (set_pot joined);;
  requester <- tx_context_sender;;
  event_emit (TileRevealRequested (uid game) tile_index requester).

(** [fulfill_reveal] *)
Definition fulfill_reveal (_ : OracleCap) (tile_index : u64)
    (decrypted_key : bytes) : Tx Game unit :=
  game <- borrow;;
  key_ref <- lift (vector_borrow (decrypted_tile_keys game) tile_index);;
  if option_is_none key_ref then
    filled <- lift (option_fill key_ref decrypted_key);;
    modify (set_decrypted_tile_keys
              (vector_write (decrypted_tile_keys game) tile_index filled));;
    event_emit (TileRevealed (uid game) tile_index decrypted_key)
  else ret tt.

(** [commit_guess] *)
Definition commit_guess (submission_hash : bytes) (clock : Clock)
  : Tx Game unit :=
  game <- borrow;;
  assert_ (negb (is_solved game)) EGameAlreadySolved;;
  sender <- tx_context_sender;;
  let commitment :=
    {| submission_hash := submission_hash;
       timestamp_ms := clock_timestamp clock |} in
  (if table_contains (guess_commitments game) sender then
     removed <- lift (table_remove (guess_commitments game) sender);;
     modify (set_guess_commitments removed.2)
   else ret tt);;
  game <- borrow;;
  added <- lift (table_add (guess_commitments game) sender commitment);;
  modify (set_guess_commitments added).

(** [solve] *)
Definition solve (answer_input user_salt game_salt : bytes) (clock : Clock)
  : Tx Game unit :=
  game <- borrow;;
  assert_ (negb (is_solved game)) EGameAlreadySolved;;
  sender <- tx_context_sender;;
  assert_ (table_contains (guess_commitments game) sender) ENoCommitmentFound;;
  removed <- lift (table_remove (guess_commitments game) sender);;
  modify (set_guess_commitments removed.2);;
  let commitment := removed.1 in
  let user_combine := answer_input ++ user_salt in
  let calculated_user_hash := keccak256 user_combine in
  assert_ (bool_decide (calculated_user_hash = submission_hash commitment))
          EIncorrectAnswer;;
  let calculated_game_hash := keccak256 answer_input in
  game <- borrow;;
  assert_ (bool_decide (calculated_game_hash = answer_hash game))
          EIncorrectAnswer;;
  modify (set_is_solved true);;
  modify (set_winner (Some sender));;
  game <- borrow;;
  let prize_amount := balance_value (pot game) in
  taken <- coin_take (pot game) prize_amount;;
  modify (set_pot taken.2);;
  let prize := taken.1 in
  public_transfer (CoinObject prize) sender;;
  event_emit (GameSolved (uid game) sender prize_amount).

Arguments create_game : simpl never.
Arguments request_reveal : simpl never.
Arguments fulfill_reveal : simpl never.
Arguments commit_guess : simpl never.
Arguments solve : simpl never.

(** ** The ledger's view of a call *)

(** Running a call on the objects it borrows, in a fresh transaction. *)
Definition run {R A} (m : Tx R A) (r : R) (c : TxContext) : outcome R A :=
  m {| refs := r; ctx := c; effects := no_effects |}.

(** What the ledger holds after the call: the call's result when it is done,
    the state from before when it aborted. *)
Definition commit {R A} (before : R) (o : outcome R A) : R :=
  match o with
  | Done _ s => refs s
  | Aborted _ _ => before
  end.

Definition commit_effects {R A} (o : outcome R A) : Effects :=
  match o with
  | Done _ s => effects s
  | Aborted _ _ => no_effects
  end.

Definition failure_of {R A} (o : outcome R A) : option failure :=
  match o with
  | Done _ _ => None
  | Aborted f _ => Some f
  end.

Definition succeeds {R A} (o : outcome R A) : Prop :=
  failure_of o = None.

Definition rejected_with {R A} (code : u64) (o : outcome R A) : Prop :=
  failure_of o = Some (MoveAbort mosaic code).

(** A call of one of the four entry points that take the game, each in a
    transaction of its own. *)
Inductive Call :=
  | RequestReveal (tile_index : u64) (payment : Coin) (c : TxContext)
  | FulfillReveal (cap : OracleCap) (tile_index : u64) (decrypted_key : bytes)
      (c : TxContext)
  | CommitGuess (submission_hash : bytes) (clock : Clock) (c : TxContext)
  | Solve (answer_input user_salt game_salt : bytes) (clock : Clock)
      (c : TxContext).

Definition exec (call : Call) (g : Game) : outcome Game unit :=
  match call with
  | RequestReveal tile_index payment c =>
      run (request_reveal tile_index payment) g c
  | FulfillReveal cap tile_index decrypted_key c =>
      run (fulfill_reveal cap tile_index decrypted_key) g c
  | CommitGuess submission_hash clock c =>
      run (commit_guess submission_hash clock) g c
  | Solve answer_input user_salt game_salt clock c =>
      run (solve answer_input user_salt game_salt clock) g c
  end.

Definition step (call : Call) (g : Game) : Game := commit g (exec call g).

Definition steps (calls : list Call) (g : Game) : Game :=
  fold_left (fun g call => step call g) calls g.

(** The games that exist: shared by a [create_game] that was done, then
    taken through any calls. *)
Inductive reachable : Game -> Prop :=
  | reachable_created answer_hash walrus_blob_id encrypted_keys
      encryption_ids_bytes c s g :
      run (create_game answer_hash walrus_blob_id encrypted_keys
             encryption_ids_bytes) tt c = Done tt s ->
      In g (shared (effects s)) ->
      reachable g
  | reachable_step g call :
      reachable g ->
      reachable (step call g).

(** ** Games after a call

    The values the game takes in the cases of the entry points; the lemmas
    below relate them to the code. *)

(** The initial transaction state of a call on [g]. *)
Definition entering (g : Game) (c : TxContext) : TxState Game :=
  {| refs := g; ctx := c; effects := no_effects |}.

Definition without_commitment (who : address) (g : Game) : Game :=
  set_guess_commitments
    {| table_id := table_id (guess_commitments g);
       entries := delete who (entries (guess_commitments g)) |} g.

Definition with_commitment (who : address) (c : Commitment) (g : Game)
  : Game :=
  set_guess_commitments
    {| table_id := table_id (guess_commitments g);
       entries := <[who := c]> (entries (guess_commitments g)) |} g.

Definition settled (who : address) (g : Game) : Game :=
  set_pot balance_zero
    (set_winner (Some who) (set_is_solved true (without_commitment who g))).

(** The coin [solve] mints for the winner out of the whole pot. *)
Definition prize_coin (s : TxState Game) : Coin :=
  {| coin_id := fresh_id (ctx s); balance := pot (refs s) |}.

(** Everything a single call can make of a game. *)
Inductive change : Game -> Game -> Prop :=
  | change_none g :
      change g g
  | change_paid g :
      is_solved g = false ->
      change g (set_pot {| value := value (pot g) + TILE_PRICE |} g)
  | change_revealed g i key :
      decrypted_tile_keys g !! i = Some None ->
      change g (set_decrypted_tile_keys
                  (<[i := Some key]> (decrypted_tile_keys g)) g)
  | change_committed g who c :
      is_solved g = false ->
      change g (with_commitment who c g)
  | change_settled g who :
      is_solved g = false ->
      change g (settled who g).

#[local] Hint Constructors change : core.

(** A solved game has a winner and an empty pot. *)
Definition paid_out (g : Game) : Prop :=
  is_solved g = true -> is_Some (winner g) /\ value (pot g) = 0.

(** ** A sample game

    The scenario of [tests/curg_mosaic_reveal_tests.move], paying the tile
    price the contract is configured with. *)
Module Sample.

Definition ADMIN : address := 0xAD.
Definition PLAYER_A : address := 0xA.
Definition PLAYER_B : address := 0xB.

Definition tx (who : address) (digest : string) : TxContext :=
  {| sender := who; tx_hash := bytes_of digest; epoch := 0;
     epoch_timestamp_ms := 0; ids_created := 0 |}.

Definition clock : Clock := {| clock_timestamp_ms := 0 |}.

Definition cap : OracleCap :=
  {| cap_id := fresh_id (tx ADMIN "publish") |}.

Definition coin (amount : u64) : Coin :=
  {| coin_id := fresh_id (tx PLAYER_A "faucet");
     balance := {| value := amount |} |}.

Definition blob : MoveString :=
  {| string_bytes := bytes_of "walrus_blob_123" |}.

Definition creation : outcome unit unit :=
  run (create_game (keccak256 (bytes_of "sui")) blob
         (repeat (bytes_of "encrypted_blob_key") 100)
         (repeat (bytes_of "tile") 100))
      tt (tx ADMIN "create").

(** The game [creation] shares. *)
Definition created : Game :=
  {| uid := fresh_id (tx ADMIN "create");
     creator := ADMIN;
     answer_hash := keccak256 (bytes_of "sui");
     walrus_blob_id := blob;
     encrypted_tile_keys := repeat (bytes_of "encrypted_blob_key") 100;
     encryption_ids := repeat {| string_bytes := bytes_of "tile" |} 100;
     decrypted_tile_keys := repeat None 100;
     pot := balance_zero;
     is_solved := false;
     winner := None;
     guess_commitments :=
       {| table_id := fresh_id (count_id (tx ADMIN "create"));
          entries := ∅ |} |}.

Definition request_0 : Call :=
  RequestReveal 0 (coin TILE_PRICE) (tx PLAYER_A "request").
Definition fulfill_0 : Call :=
  FulfillReveal cap 0 (bytes_of "real_aes_key_for_tile_0")
    (tx ADMIN "fulfill").
Definition commit_sui : Call :=
  CommitGuess (keccak256 (bytes_of "sui" ++ bytes_of "my_secret_salt"))
    clock (tx PLAYER_B "commit").
Definition solve_moon : Call :=
  Solve (bytes_of "moon") (bytes_of "my_secret_salt") [] clock
    (tx PLAYER_B "reveal").
Definition solve_sui : Call :=
  Solve (bytes_of "sui") (bytes_of "my_secret_salt") [] clock
    (tx PLAYER_B "reveal").

(** What [commit_sui] stores for player B. *)
Definition commitment_b : Commitment :=
  {| submission_hash :=
       keccak256 (bytes_of "sui" ++ bytes_of "my_secret_salt");
     timestamp_ms := 0 |}.

Definition requested : Game := step request_0 created.
Definition revealed : Game := step fulfill_0 requested.
Definition committed : Game := step commit_sui revealed.
Definition solved : Game := step solve_sui committed.

End Sample.

(** ** Reading a sequence of calls *)

(** The sender of the transaction a call runs in. *)
Definition caller (call : Call) : address :=
  match call with
  | RequestReveal _ _ c => sender c
  | FulfillReveal _ _ _ c => sender c
  | CommitGuess _ _ c => sender c
  | Solve _ _ _ _ c => sender c
  end.

Definition is_done {R A} (o : outcome R A) : bool :=
  match o with
  | Done _ _ => true
  | Aborted _ _ => false
  end.

(** What a call adds to the pot: the coin of a [request_reveal] that is
    done.  The coin of a rejected one stays with its owner. *)
Definition deposited (call : Call) (g : Game) : u64 :=
  match call with
  | RequestReveal _ payment _ =>
      if is_done (exec call g) then coin_value payment else 0
  | _ => 0
  end.

(** What a call hands out: the coins among the objects it transfers. *)
Definition object_value (o : Object) : u64 :=
  match o with
  | CoinObject c => coin_value c
  | OracleCapObject _ => 0
  end.

Definition withdrawn (call : Call) (g : Game) : u64 :=
  fold_right (fun t acc => object_value t.1 + acc) 0
    (transferred (commit_effects (exec call g))).

Fixpoint total_deposited (calls : list Call) (g : Game) : u64 :=
  match calls with
  | [] => 0
  | call :: rest => deposited call g + total_deposited rest (step call g)
  end.

Fixpoint total_withdrawn (calls : list Call) (g : Game) : u64 :=
  match calls with
  | [] => 0
  | call :: rest => withdrawn call g + total_withdrawn rest (step call g)
  end.

(** The game [create_game] shares when it is done. *)
Definition new_game (digest : bytes) (blob_id : MoveString)
    (encrypted_keys encryption_ids_bytes : list bytes) (c : TxContext)
  : Game :=
  {| uid := fresh_id c;
     creator := sender c;
     answer_hash := digest;
     walrus_blob_id := blob_id;
     encrypted_tile_keys := encrypted_keys;
     encryption_ids := map Build_MoveString encryption_ids_bytes;
     decrypted_tile_keys := repeat None 100;
     pot := balance_zero;
     is_solved := false;
     winner := None;
     guess_commitments :=
       {| table_id := fresh_id (count_id c); entries := ∅ |} |}.

(** The body of the first loop of [create_game]. *)
Definition convert_id (encryption_ids_bytes : list bytes) (i : u64)
    (ids : list MoveString) : result (list MoveString) :=
  match vector_borrow encryption_ids_bytes i with
  | Ok id_bytes =>
      match string_utf8 id_bytes with
      | Ok id_string => Ok (ids ++ [id_string])
      | Err f => Err f
      end
  | Err f => Err f
  end.

(** The events and the transfers a sequence of calls leaves on the ledger,
    in order. *)
Fixpoint trace_events (calls : list Call) (g : Game) : list Event :=
  match calls with
  | [] => []
  | call :: rest =>
      events (commit_effects (exec call g)) ++ trace_events rest (step call g)
  end.

Definition reveals_tile (i : u64) (e : Event) : bool :=
  match e with
  | TileRevealed _ j _ => i =? j
  | _ => false
  end.

Definition is_request (e : Event) : bool :=
  match e with
  | TileRevealRequested _ _ _ => true
  | _ => false
  end.

Definition is_settlement (e : Event) : bool :=
  match e with
  | GameSolved _ _ _ => true
  | _ => false
  end.

(** A game made with the answer itself where its digest belongs. *)
Module Stuck.

Definition created : Game :=
  new_game (bytes_of "sui") Sample.blob
    (repeat (bytes_of "encrypted_blob_key") 100)
    (repeat (bytes_of "tile") 100) (Sample.tx Sample.ADMIN "create").

Definition calls : list Call :=
  [Sample.request_0; Sample.commit_sui; Sample.solve_sui].

End Stuck.

(** * Behaviour of the entry points, case by case *)

Section EntryPoints.

Variable s : TxState Game.
#[local] Abbreviation game := (refs s).
#[local] Abbreviation who := (sender (ctx s)).

(** *** [solve] *)

Lemma solve_already_solved answer_input user_salt game_salt clock :
  is_solved game = true ->
  solve answer_input user_salt game_salt clock s
  = Aborted (MoveAbort mosaic EGameAlreadySolved) s.
Proof.
  intros Hsolved. unfold solve, bind, borrow, assert_, abort.
  now rewrite Hsolved.
Qed.

Lemma solve_no_commitment answer_input user_salt game_salt clock :
  is_solved game = false ->
  entries (guess_commitments game) !! who = None ->
  solve answer_input user_salt game_salt clock s
  = Aborted (MoveAbort mosaic ENoCommitmentFound) s.
Proof.
  intros Hsolved Hnone.
  unfold solve, bind, borrow, assert_, abort, ret, tx_context_sender,
    table_contains.
  rewrite Hsolved. cbn. rewrite Hnone.
  rewrite bool_decide_eq_false_2; [reflexivity | ].
  intros [? ?]; discriminate.
Qed.

Lemma solve_commitment_mismatch answer_input user_salt game_salt clock c :
  is_solved game = false ->
  entries (guess_commitments game) !! who = Some c ->
  keccak256 (answer_input ++ user_salt) <> submission_hash c ->
  solve answer_input user_salt game_salt clock s
  = Aborted (MoveAbort mosaic EIncorrectAnswer)
      {| refs := without_commitment who game; ctx := ctx s;
         effects := effects s |}.
Proof.
  intros Hsolved Hsome Hne.
  unfold solve, bind, borrow, assert_, abort, ret, tx_context_sender,
    table_contains, lift, table_remove, modify.
  rewrite Hsolved. cbn. rewrite Hsome.
  rewrite bool_decide_eq_true_2 by eauto. cbn.
  now rewrite bool_decide_eq_false_2.
Qed.

Lemma solve_wrong_answer answer_input user_salt game_salt clock c :
  is_solved game = false ->
  entries (guess_commitments game) !! who = Some c ->
  keccak256 (answer_input ++ user_salt) = submission_hash c ->
  keccak256 answer_input <> answer_hash game ->
  solve answer_input user_salt game_salt clock s
  = Aborted (MoveAbort mosaic EIncorrectAnswer)
      {| refs := without_commitment who game; ctx := ctx s;
         effects := effects s |}.
Proof.
  intros Hsolved Hsome Heq Hne.
  unfold solve, bind, borrow, assert_, abort, ret, tx_context_sender,
    table_contains, lift, table_remove, modify.
  rewrite Hsolved. cbn. rewrite Hsome.
  rewrite bool_decide_eq_true_2 by eauto. cbn.
  rewrite bool_decide_eq_true_2 by assumption. cbn.
  now rewrite bool_decide_eq_false_2.
Qed.

Lemma solve_wins answer_input user_salt game_salt clock c :
  is_solved game = false ->
  entries (guess_commitments game) !! who = Some c ->
  keccak256 (answer_input ++ user_salt) = submission_hash c ->
  keccak256 answer_input = answer_hash game ->
  solve answer_input user_salt game_salt clock s
  = Done tt
      {| refs := settled who game;
         ctx := count_id (ctx s);
         effects :=
           add_event (GameSolved (uid game) who (value (pot game)))
             (add_transfer (CoinObject (prize_coin s)) who (effects s)) |}.
Proof.
  intros Hsolved Hsome Heq Hans.
  unfold solve, bind, borrow, assert_, abort, ret, tx_context_sender,
    table_contains, lift, table_remove, modify.
  rewrite Hsolved. cbn. rewrite Hsome.
  rewrite bool_decide_eq_true_2 by eauto. cbn.
  rewrite bool_decide_eq_true_2 by assumption. cbn.
  rewrite bool_decide_eq_true_2 by assumption. cbn.
  unfold coin_take, bind, object_new, lift, balance_split, balance_value.
  cbn. rewrite N.leb_refl. cbn. rewrite N.sub_diag.
  unfold prize_coin, settled, balance_zero. destruct (pot game). reflexivity.
Qed.

(** *** [request_reveal] *)

Lemma request_reveal_already_solved tile_index payment :
  is_solved game = true ->
  request_reveal tile_index payment s
  = Aborted (MoveAbort mosaic EGameAlreadySolved) s.
Proof.
  intros Hsolved. unfold request_reveal, bind, borrow, assert_, abort.
  now rewrite Hsolved.
Qed.

Lemma request_reveal_wrong_payment tile_index payment :
  is_solved game = false ->
  coin_value payment <> TILE_PRICE ->
  request_reveal tile_index payment s
  = Aborted (MoveAbort mosaic EInvalidPayment) s.
Proof.
  intros Hsolved Hpay. apply N.eqb_neq in Hpay.
  unfold request_reveal, bind, borrow, assert_, abort, ret.
  rewrite Hsolved. cbn. now rewrite Hpay.
Qed.

Lemma request_reveal_bad_index tile_index payment :
  is_solved game = false ->
  coin_value payment = TILE_PRICE ->
  TOTAL_TILES <= tile_index ->
  request_reveal tile_index payment s
  = Aborted (MoveAbort mosaic EInvalidTileIndex) s.
Proof.
  intros Hsolved Hpay Hidx. apply N.eqb_eq in Hpay. apply N.ltb_ge in Hidx.
  unfold request_reveal, bind, borrow, assert_, abort, ret.
  rewrite Hsolved. cbn. rewrite Hpay. now rewrite Hidx.
Qed.

Lemma request_reveal_short_vector tile_index payment :
  is_solved game = false ->
  coin_value payment = TILE_PRICE ->
  tile_index < TOTAL_TILES ->
  decrypted_tile_keys game !! N.to_nat tile_index = None ->
  request_reveal tile_index payment s = Aborted VectorIndexOutOfBounds s.
Proof.
  intros Hsolved Hpay Hidx Hslot.
  apply N.eqb_eq in Hpay. apply N.ltb_lt in Hidx.
  unfold request_reveal, bind, borrow, assert_, abort, ret, lift,
    vector_borrow.
  rewrite Hsolved. cbn. rewrite Hpay, Hidx. now rewrite Hslot.
Qed.

Lemma request_reveal_already_revealed tile_index payment key :
  is_solved game = false ->
  coin_value payment = TILE_PRICE ->
  tile_index < TOTAL_TILES ->
  decrypted_tile_keys game !! N.to_nat tile_index = Some (Some key) ->
  request_reveal tile_index payment s
  = Aborted (MoveAbort mosaic ETileAlreadyRevealed) s.
Proof.
  intros Hsolved Hpay Hidx Hslot.
  apply N.eqb_eq in Hpay. apply N.ltb_lt in Hidx.
  unfold request_reveal, bind, borrow, assert_, abort, ret, lift,
    vector_borrow.
  rewrite Hsolved. cbn. rewrite Hpay, Hidx. now rewrite Hslot.
Qed.

Lemma request_reveal_overflow tile_index payment :
  is_solved game = false ->
  coin_value payment = TILE_PRICE ->
  tile_index < TOTAL_TILES ->
  decrypted_tile_keys game !! N.to_nat tile_index = Some None ->
  MAX_U64 < value (pot game) + TILE_PRICE ->
  request_reveal tile_index payment s
  = Aborted ArithmeticError
      {| refs := game; ctx := ctx s;
         effects := add_deleted (coin_id payment) (effects s) |}.
Proof.
  intros Hsolved Hpay Hidx Hslot Hover.
  assert (Hv : value (balance payment) = TILE_PRICE) by exact Hpay.
  apply N.eqb_eq in Hpay. apply N.ltb_lt in Hidx.
  unfold request_reveal, bind, borrow, assert_, abort, ret, lift,
    vector_borrow.
  rewrite Hsolved. cbn. rewrite Hpay, Hidx, Hslot. cbn.
  unfold balance_join. rewrite Hv.
  apply N.leb_gt in Hover. now rewrite Hover.
Qed.

Lemma request_reveal_paid tile_index payment :
  is_solved game = false ->
  coin_value payment = TILE_PRICE ->
  tile_index < TOTAL_TILES ->
  decrypted_tile_keys game !! N.to_nat tile_index = Some None ->
  value (pot game) + TILE_PRICE <= MAX_U64 ->
  request_reveal tile_index payment s
  = Done tt
      {| refs := set_pot {| value := value (pot game) + TILE_PRICE |} game;
         ctx := ctx s;
         effects :=
           add_event (TileRevealRequested (uid game) tile_index who)
             (add_deleted (coin_id payment) (effects s)) |}.
Proof.
  intros Hsolved Hpay Hidx Hslot Hfits.
  assert (Hv : value (balance payment) = TILE_PRICE) by exact Hpay.
  apply N.eqb_eq in Hpay. apply N.ltb_lt in Hidx.
  unfold request_reveal, bind, borrow, assert_, abort, ret, lift,
    vector_borrow.
  rewrite Hsolved. cbn. rewrite Hpay, Hidx, Hslot. cbn.
  unfold balance_join. rewrite Hv.
  apply N.leb_le in Hfits. now rewrite Hfits.
Qed.

(** *** [fulfill_reveal] *)

Lemma fulfill_reveal_out_of_range cap tile_index decrypted_key :
  decrypted_tile_keys game !! N.to_nat tile_index = None ->
  fulfill_reveal cap tile_index decrypted_key s
  = Aborted VectorIndexOutOfBounds s.
Proof.
  intros Hslot.
  unfold fulfill_reveal, bind, borrow, lift, vector_borrow, abort.
  now rewrite Hslot.
Qed.

Lemma fulfill_reveal_replay cap tile_index decrypted_key key :
  decrypted_tile_keys game !! N.to_nat tile_index = Some (Some key) ->
  fulfill_reveal cap tile_index decrypted_key s = Done tt s.
Proof.
  intros Hslot.
  unfold fulfill_reveal, bind, borrow, lift, vector_borrow, ret.
  now rewrite Hslot.
Qed.

Lemma fulfill_reveal_fills cap tile_index decrypted_key :
  decrypted_tile_keys game !! N.to_nat tile_index = Some None ->
  fulfill_reveal cap tile_index decrypted_key s
  = Done tt
      {| refs :=
           set_decrypted_tile_keys
             (<[N.to_nat tile_index := Some decrypted_key]>
                (decrypted_tile_keys game)) game;
         ctx := ctx s;
         effects :=
           add_event (TileRevealed (uid game) tile_index decrypted_key)
             (effects s) |}.
Proof.
  intros Hslot.
  unfold fulfill_reveal, bind, borrow, lift, vector_borrow, ret.
  now rewrite Hslot.
Qed.

(** *** [commit_guess] *)

Lemma commit_guess_already_solved submission_hash clock :
  is_solved game = true ->
  commit_guess submission_hash clock s
  = Aborted (MoveAbort mosaic EGameAlreadySolved) s.
Proof.
  intros Hsolved. unfold commit_guess, bind, borrow, assert_, abort.
  now rewrite Hsolved.
Qed.

Lemma commit_guess_stores submission_hash clock :
  is_solved game = false ->
  commit_guess submission_hash clock s
  = Done tt
      {| refs :=
           with_commitment who
             {| submission_hash := submission_hash;
                timestamp_ms := clock_timestamp_ms clock |} game;
         ctx := ctx s; effects := effects s |}.
Proof.
  intros Hsolved.
  unfold commit_guess, bind, borrow, assert_, abort, ret,
    tx_context_sender, table_contains, lift, modify.
  rewrite Hsolved. cbn.
  destruct (entries (guess_commitments game) !! who) as [old|] eqn:Hold.
  - rewrite bool_decide_eq_true_2 by eauto.
    unfold table_remove. rewrite Hold. cbn.
    unfold table_add. cbn. rewrite lookup_delete_eq. cbn.
    unfold with_commitment. now rewrite insert_delete_eq.
  - rewrite bool_decide_eq_false_2 by (intros [? ?]; discriminate).
    unfold table_add. rewrite Hold. reflexivity.
Qed.

End EntryPoints.

(** *** [create_game] *)

Lemma none_loop :
  while_below TOTAL_TILES
    (fun (_ : u64) (keys : list (option bytes)) => Ok (keys ++ [None])) []
  = Ok (repeat None 100).
Proof. reflexivity. Qed.

Lemma create_game_shares digest walrus_blob_id encrypted_keys
    encryption_ids_bytes c s g :
  run (create_game digest walrus_blob_id encrypted_keys
         encryption_ids_bytes) tt c = Done tt s ->
  In g (shared (effects s)) ->
  decrypted_tile_keys g = repeat None 100
  /\ pot g = balance_zero
  /\ is_solved g = false
  /\ winner g = None
  /\ entries (guess_commitments g) = ∅
  /\ answer_hash g = digest
  /\ creator g = sender c
  /\ encrypted_tile_keys g = encrypted_keys
  /\ length encrypted_keys = 100%nat.
Proof.
  unfold run, create_game, bind, assert_, abort, ret.
  destruct (vector_length encrypted_keys =? TOTAL_TILES) eqn:Hkeys;
    [ | discriminate].
  destruct (vector_length encryption_ids_bytes =? TOTAL_TILES) eqn:Hids;
    [ | discriminate].
  rewrite none_loop.
  match goal with
  | |- context [lift (while_below ?n ?f ?a)] =>
      destruct (while_below n f a) as [ids | f0]
  end; [ | discriminate].
  cbn. intros [= <-]. cbn. intros [<- | []]. cbn.
  apply N.eqb_eq in Hkeys. unfold vector_length, TOTAL_TILES in Hkeys.
  repeat split. lia.
Qed.

(** * What one call can do to the game *)

(** [request_reveal] either aborts before it touches anything, or aborts on
    the overflow of the pot after deleting the coin's id, or is paid. *)
Lemma request_reveal_cases tile_index payment s :
  (exists code, request_reveal tile_index payment s
                = Aborted (MoveAbort mosaic code) s)
  \/ request_reveal tile_index payment s = Aborted VectorIndexOutOfBounds s
  \/ request_reveal tile_index payment s
     = Aborted ArithmeticError
         {| refs := refs s; ctx := ctx s;
            effects := add_deleted (coin_id payment) (effects s) |}
  \/ (is_solved (refs s) = false
      /\ coin_value payment = TILE_PRICE
      /\ tile_index < TOTAL_TILES
      /\ decrypted_tile_keys (refs s) !! N.to_nat tile_index = Some None
      /\ request_reveal tile_index payment s
         = Done tt
             {| refs := set_pot {| value := value (pot (refs s)) + TILE_PRICE |}
                          (refs s);
                ctx := ctx s;
                effects :=
                  add_event (TileRevealRequested (uid (refs s)) tile_index
                               (sender (ctx s)))
                    (add_deleted (coin_id payment) (effects s)) |}).
Proof.
  destruct (is_solved (refs s)) eqn:Hsolved.
  { left. eexists. now apply request_reveal_already_solved. }
  destruct (decide (coin_value payment = TILE_PRICE)) as [Hpay | Hpay].
  2: { left. eexists. now apply request_reveal_wrong_payment. }
  destruct (N.lt_ge_cases tile_index TOTAL_TILES) as [Hidx | Hidx].
  2: { left. eexists. now apply request_reveal_bad_index. }
  destruct (decrypted_tile_keys (refs s) !! N.to_nat tile_index)
    as [[key|]|] eqn:Hslot.
  - left. eexists. now apply request_reveal_already_revealed with key.
  - destruct (N.le_gt_cases (value (pot (refs s)) + TILE_PRICE) MAX_U64)
      as [Hfit | Hover].
    + do 3 right. repeat split; try assumption.
      now apply request_reveal_paid.
    + right; right; left. now apply request_reveal_overflow.
  - right; left. now apply request_reveal_short_vector.
Qed.

Lemma fulfill_reveal_cases cap tile_index decrypted_key s :
  (decrypted_tile_keys (refs s) !! N.to_nat tile_index = None
   /\ fulfill_reveal cap tile_index decrypted_key s
      = Aborted VectorIndexOutOfBounds s)
  \/ (exists key,
        decrypted_tile_keys (refs s) !! N.to_nat tile_index = Some (Some key)
        /\ fulfill_reveal cap tile_index decrypted_key s = Done tt s)
  \/ (decrypted_tile_keys (refs s) !! N.to_nat tile_index = Some None
      /\ fulfill_reveal cap tile_index decrypted_key s
         = Done tt
             {| refs :=
                  set_decrypted_tile_keys
                    (<[N.to_nat tile_index := Some decrypted_key]>
                       (decrypted_tile_keys (refs s))) (refs s);
                ctx := ctx s;
                effects :=
                  add_event
                    (TileRevealed (uid (refs s)) tile_index decrypted_key)
                    (effects s) |}).
Proof.
  destruct (decrypted_tile_keys (refs s) !! N.to_nat tile_index)
    as [[key|]|] eqn:Hslot.
  - right; left. exists key. split; [reflexivity | ].
    now apply fulfill_reveal_replay with key.
  - right; right. split; [reflexivity | ]. now apply fulfill_reveal_fills.
  - left. split; [reflexivity | ]. now apply fulfill_reveal_out_of_range.
Qed.

(** The four ways [solve] can end on an unsolved game. *)
Lemma solve_cases answer_input user_salt game_salt clock s :
  is_solved (refs s) = false ->
  (entries (guess_commitments (refs s)) !! sender (ctx s) = None
   /\ solve answer_input user_salt game_salt clock s
      = Aborted (MoveAbort mosaic ENoCommitmentFound) s)
  \/ (exists c,
        entries (guess_commitments (refs s)) !! sender (ctx s) = Some c
        /\ (keccak256 (answer_input ++ user_salt) <> submission_hash c
            \/ keccak256 answer_input <> answer_hash (refs s))
        /\ solve answer_input user_salt game_salt clock s
           = Aborted (MoveAbort mosaic EIncorrectAnswer)
               {| refs := without_commitment (sender (ctx s)) (refs s);
                  ctx := ctx s; effects := effects s |})
  \/ (exists c,
        entries (guess_commitments (refs s)) !! sender (ctx s) = Some c
        /\ keccak256 (answer_input ++ user_salt) = submission_hash c
        /\ keccak256 answer_input = answer_hash (refs s)
        /\ solve answer_input user_salt game_salt clock s
           = Done tt
               {| refs := settled (sender (ctx s)) (refs s);
                  ctx := count_id (ctx s);
                  effects :=
                    add_event (GameSolved (uid (refs s)) (sender (ctx s))
                                 (value (pot (refs s))))
                      (add_transfer (CoinObject (prize_coin s))
                         (sender (ctx s)) (effects s)) |}).
Proof.
  intros Hsolved.
  destruct (entries (guess_commitments (refs s)) !! sender (ctx s))
    as [c|] eqn:Hentry.
  2: { left. split; [reflexivity | now apply solve_no_commitment]. }
  right.
  destruct (decide (keccak256 (answer_input ++ user_salt) = submission_hash c))
    as [Hown | Hown].
  2: { left. exists c. split; [reflexivity | ]. split; [now left | ].
       now apply solve_commitment_mismatch with c. }
  destruct (decide (keccak256 answer_input = answer_hash (refs s)))
    as [Hans | Hans].
  2: { left. exists c. split; [reflexivity | ]. split; [now right | ].
       now apply solve_wrong_answer with c. }
  right. exists c. repeat split; try assumption.
  now apply solve_wins with c.
Qed.

Lemma exec_solve_solved answer_input user_salt game_salt clock c g :
  is_solved g = true ->
  exec (Solve answer_input user_salt game_salt clock c) g
  = Aborted (MoveAbort mosaic EGameAlreadySolved) (entering g c).
Proof. intros Hsolved. now apply (solve_already_solved (entering g c)). Qed.

(** A done [solve], read backwards. *)
Lemma solve_done_inv answer_input user_salt game_salt clock c g :
  succeeds (exec (Solve answer_input user_salt game_salt clock c) g) ->
  is_solved g = false
  /\ (exists cm,
        entries (guess_commitments g) !! sender c = Some cm
        /\ keccak256 (answer_input ++ user_salt) = submission_hash cm)
  /\ keccak256 answer_input = answer_hash g
  /\ exec (Solve answer_input user_salt game_salt clock c) g
     = Done tt
         {| refs := settled (sender c) g;
            ctx := count_id c;
            effects :=
              add_event (GameSolved (uid g) (sender c) (value (pot g)))
                (add_transfer (CoinObject (prize_coin (entering g c)))
                   (sender c) no_effects) |}.
Proof.
  unfold succeeds, exec, run. fold (entering g c). intros Hdone.
  destruct (is_solved g) eqn:Hsolved.
  { rewrite (solve_already_solved (entering g c)) in Hdone by assumption.
    discriminate. }
  destruct (solve_cases answer_input user_salt game_salt clock (entering g c)
              Hsolved)
    as [[_ Heq] | [(cm & _ & _ & Heq) | (cm & Hentry & Hown & Hans & Heq)]];
    rewrite Heq in Hdone; try discriminate.
  repeat split; [ | assumption | assumption].
  exists cm. now split.
Qed.

Lemma step_change call g : change g (step call g).
Proof.
  destruct call as [tile_index payment c | cap tile_index decrypted_key c
                    | submission_hash clock c
                    | answer_input user_salt game_salt clock c];
    unfold step, exec, run; fold (entering g c).
  - destruct (request_reveal_cases tile_index payment (entering g c))
      as [[code ->] | [-> | [-> | (Hsolved & _ & _ & _ & ->)]]]; cbn; auto.
  - destruct (fulfill_reveal_cases cap tile_index decrypted_key (entering g c))
      as [[_ ->] | [(key & _ & ->) | [Hslot ->]]]; cbn; auto.
  - destruct (is_solved g) eqn:Hsolved.
    + rewrite (commit_guess_already_solved (entering g c)) by assumption.
      cbn. auto.
    + rewrite (commit_guess_stores (entering g c)) by assumption. cbn. auto.
  - destruct (is_solved g) eqn:Hsolved.
    { rewrite (solve_already_solved (entering g c)) by assumption. cbn. auto. }
    destruct (solve_cases answer_input user_salt game_salt clock
                (entering g c) Hsolved)
      as [[_ ->] | [(k & _ & _ & ->) | (k & _ & _ & _ & ->)]]; cbn; auto.
Qed.

(** The game in the state an aborted call leaves behind. *)
Lemma aborted_dirty call g f dirty :
  exec call g = Aborted f dirty ->
  match call with
  | Solve _ _ _ _ c =>
      refs dirty = g \/ refs dirty = without_commitment (sender c) g
  | _ => refs dirty = g
  end.
Proof.
  destruct call as [tile_index payment c | cap tile_index decrypted_key c
                    | submission_hash clock c
                    | answer_input user_salt game_salt clock c];
    unfold exec, run; fold (entering g c).
  - destruct (request_reveal_cases tile_index payment (entering g c))
      as [[code ->] | [-> | [-> | (_ & _ & _ & _ & ->)]]];
      intros [= _ <-]; reflexivity || discriminate.
  - destruct (fulfill_reveal_cases cap tile_index decrypted_key (entering g c))
      as [[_ ->] | [(key & _ & ->) | [_ ->]]];
      intros [= _ <-] || discriminate; reflexivity.
  - destruct (is_solved g) eqn:Hsolved.
    + rewrite (commit_guess_already_solved (entering g c)) by assumption.
      now intros [= _ <-].
    + rewrite (commit_guess_stores (entering g c)) by assumption. discriminate.
  - destruct (is_solved g) eqn:Hsolved.
    { rewrite (solve_already_solved (entering g c)) by assumption.
      intros [= _ <-]. now left. }
    destruct (solve_cases answer_input user_salt game_salt clock
                (entering g c) Hsolved)
      as [[_ ->] | [(k & _ & _ & ->) | (k & _ & _ & _ & ->)]];
      intros [= _ <-] || discriminate; [now left | now right].
Qed.

(** * Invariants of the game *)

Lemma change_is_solved g g' :
  change g g' -> is_solved g = true -> is_solved g' = true.
Proof. destruct 1; cbn; congruence. Qed.

Lemma change_length g g' :
  change g g' ->
  length (decrypted_tile_keys g') = length (decrypted_tile_keys g).
Proof. destruct 1; cbn; try reflexivity. apply length_insert. Qed.

Lemma change_revealed_slot g g' i key :
  change g g' ->
  decrypted_tile_keys g !! i = Some (Some key) ->
  decrypted_tile_keys g' !! i = Some (Some key).
Proof.
  destruct 1 as [ | | g j key' Hslot | | ]; cbn; try tauto.
  intros Hi. destruct (decide (j = i)) as [-> | Hne].
  - congruence.
  - now rewrite list_lookup_insert_ne.
Qed.

Lemma change_paid_out g g' : change g g' -> paid_out g -> paid_out g'.
Proof.
  unfold paid_out. destruct 1; cbn; try tauto; try congruence.
  intros _ _. split; [eexists; reflexivity | reflexivity].
Qed.

Lemma steps_snoc calls call g :
  steps (calls ++ [call]) g = step call (steps calls g).
Proof. unfold steps. now rewrite fold_left_app. Qed.

Lemma steps_is_solved calls g :
  is_solved g = true -> is_solved (steps calls g) = true.
Proof.
  intros Hsolved. induction calls as [ | call calls IH] using rev_ind.
  - exact Hsolved.
  - rewrite steps_snoc. eapply change_is_solved; [apply step_change | exact IH].
Qed.

Lemma steps_revealed_slot calls g i key :
  decrypted_tile_keys g !! i = Some (Some key) ->
  decrypted_tile_keys (steps calls g) !! i = Some (Some key).
Proof.
  intros Hslot. induction calls as [ | call calls IH] using rev_ind.
  - exact Hslot.
  - rewrite steps_snoc.
    eapply change_revealed_slot; [apply step_change | exact IH].
Qed.

Lemma reachable_steps calls g : reachable g -> reachable (steps calls g).
Proof.
  intros Hg. induction calls as [ | call calls IH] using rev_ind.
  - exact Hg.
  - rewrite steps_snoc. now constructor.
Qed.

Lemma reachable_length g :
  reachable g -> length (decrypted_tile_keys g) = 100%nat.
Proof.
  induction 1 as [digest blob keys ids c s g Hrun Hin | g call _ IH].
  - destruct (create_game_shares _ _ _ _ _ _ _ Hrun Hin) as (-> & _).
    apply repeat_length.
  - rewrite (change_length _ _ (step_change call g)). exact IH.
Qed.

Lemma reachable_paid_out g : reachable g -> paid_out g.
Proof.
  induction 1 as [digest blob keys ids c s g Hrun Hin | g call _ IH].
  - destruct (create_game_shares _ _ _ _ _ _ _ Hrun Hin)
      as (_ & _ & Hsolved & _).
    unfold paid_out. congruence.
  - exact (change_paid_out _ _ (step_change call g) IH).
Qed.

(** * The sample game, run *)

Lemma sample_creation_done :
  Sample.creation
  = Done tt
      {| refs := tt;
         ctx := count_id (count_id (Sample.tx Sample.ADMIN "create"));
         effects :=
           add_shared Sample.created
             (add_event (GameCreated (uid Sample.created)) no_effects) |}.
Proof. vm_compute. reflexivity. Qed.

Lemma sample_created_reachable : reachable Sample.created.
Proof.
  eapply reachable_created.
  - exact sample_creation_done.
  - cbn. left. reflexivity.
Qed.

Lemma sample_committed_reachable : reachable Sample.committed.
Proof. do 3 constructor. exact sample_created_reachable. Qed.

Lemma sample_solved_reachable : reachable Sample.solved.
Proof. constructor. exact sample_committed_reachable. Qed.

Example keccak256_of_nothing :
  map Byte.to_N (keccak256 [])
  = [0xc5; 0xd2; 0x46; 0x01; 0x86; 0xf7; 0x23; 0x3c;
     0x92; 0x7e; 0x7d; 0xb2; 0xdc; 0xc7; 0x03; 0xc0;
     0xe5; 0x00; 0xb6; 0x53; 0xca; 0x82; 0x27; 0x3b;
     0x7b; 0xfa; 0xd8; 0x04; 0x5d; 0x85; 0xa4; 0x70].
Proof. vm_compute. reflexivity. Qed.

Example keccak256_of_abc :
  map Byte.to_N (keccak256 (bytes_of "abc"))
  = [0x4e; 0x03; 0x65; 0x7a; 0xea; 0x45; 0xa9; 0x4f;
     0xc7; 0xd4; 0x7b; 0xa8; 0x26; 0xc8; 0xd6; 0x67;
     0xc0; 0xd1; 0xe6; 0xe3; 0x3a; 0x64; 0xa0; 0x36;
     0xec; 0x44; 0xf5; 0x8f; 0xa1; 0x2d; 0x6c; 0x45].
Proof. vm_compute. reflexivity. Qed.

Example scenario_request :
  value (pot Sample.requested) = TILE_PRICE
  /\ decrypted_tile_keys Sample.requested !! 0%nat = Some None
  /\ events (commit_effects (exec Sample.request_0 Sample.created))
     = [TileRevealRequested (uid Sample.created) 0 Sample.PLAYER_A].
Proof. vm_compute. repeat split. Qed.

Example scenario_tile_100 :
  rejected_with EInvalidTileIndex
    (exec (RequestReveal 100 (Sample.coin TILE_PRICE)
             (Sample.tx Sample.PLAYER_A "request")) Sample.created).
Proof. vm_compute. reflexivity. Qed.

Example scenario_settlement :
  is_solved Sample.solved = true
  /\ winner Sample.solved = Some Sample.PLAYER_B
  /\ value (pot Sample.solved) = 0
  /\ transferred (commit_effects (exec Sample.solve_sui Sample.committed))
     = [(CoinObject {| coin_id := fresh_id (Sample.tx Sample.PLAYER_B "reveal");
                       balance := {| value := TILE_PRICE |} |},
         Sample.PLAYER_B)].
Proof. vm_compute. repeat split. Qed.

(** * Properties of the game *)

(** C1. When [solve] is done for a caller, the game is solved, the caller is
    the winner, the whole pot of the moment is transferred to the caller (and
    reported in the [GameSolved] event), the pot is left at zero, and after
    any further calls every [solve], by anyone, is rejected with
    [EGameAlreadySolved]. *)
Theorem solve_settles_once answer_input user_salt game_salt clock c g :
  succeeds (exec (Solve answer_input user_salt game_salt clock c) g) ->
  let call := Solve answer_input user_salt game_salt clock c in
  is_solved (step call g) = true
  /\ winner (step call g) = Some (sender c)
  /\ transferred (commit_effects (exec call g))
     = [(CoinObject {| coin_id := fresh_id c; balance := pot g |}, sender c)]
  /\ events (commit_effects (exec call g))
     = [GameSolved (uid g) (sender c) (value (pot g))]
  /\ value (pot (step call g)) = 0
  /\ forall later answer' salt' game_salt' clock' c',
       rejected_with EGameAlreadySolved
         (exec (Solve answer' salt' game_salt' clock' c')
               (steps later (step call g))).
Proof.
  intros Hdone call.
  destruct (solve_done_inv _ _ _ _ _ _ Hdone) as (_ & _ & _ & Heq).
  fold call in Heq.
  assert (Hstep : step call g = settled (sender c) g)
    by (unfold step; now rewrite Heq).
  rewrite Hstep, Heq.
  do 5 (split; [reflexivity | ]).
  intros later answer' salt' game_salt' clock' c'.
  unfold rejected_with.
  rewrite exec_solve_solved; [reflexivity | ].
  now apply steps_is_solved.
Qed.

Lemma solve_settles_once_witness :
  succeeds (exec Sample.solve_sui Sample.committed)
  /\ is_solved Sample.solved = true
  /\ winner Sample.solved = Some Sample.PLAYER_B
  /\ value (pot Sample.solved) = 0
  /\ rejected_with EGameAlreadySolved (exec Sample.solve_sui Sample.solved).
Proof.
  assert (Hdone : succeeds (exec Sample.solve_sui Sample.committed))
    by (vm_compute; reflexivity).
  destruct (solve_settles_once _ _ _ _ _ _ Hdone)
    as (Hsolved & Hwinner & _ & _ & Hpot & Hlater).
  split; [exact Hdone | ].
  split; [exact Hsolved | ].
  split; [exact Hwinner | ].
  split; [exact Hpot | ].
  exact (Hlater [] _ _ _ _ _).
Defined.

(** An entry that a call removes was the caller's own, and the call a
    [solve] that was done. *)
Lemma removal_needs_done_solve call g p cm :
  entries (guess_commitments g) !! p = Some cm ->
  entries (guess_commitments (step call g)) !! p = None ->
  caller call = p
  /\ succeeds (exec call g)
  /\ exists answer_input user_salt game_salt clock c,
       call = Solve answer_input user_salt game_salt clock c.
Proof.
  intros Hentry.
  destruct call as [tile_index payment c | cap tile_index decrypted_key c
                    | submission_hash clock c
                    | answer_input user_salt game_salt clock c];
    unfold step, succeeds, caller, exec, run; fold (entering g c).
  - destruct (request_reveal_cases tile_index payment (entering g c))
      as [[code ->] | [-> | [-> | (_ & _ & _ & _ & ->)]]];
      cbn; congruence.
  - destruct (fulfill_reveal_cases cap tile_index decrypted_key (entering g c))
      as [[_ ->] | [(key & _ & ->) | [_ ->]]]; cbn; congruence.
  - destruct (is_solved g) eqn:Hsolved.
    + rewrite (commit_guess_already_solved (entering g c)) by assumption.
      cbn. congruence.
    + rewrite (commit_guess_stores (entering g c)) by assumption. cbn.
      destruct (decide (sender c = p)) as [-> | Hother].
      * rewrite lookup_insert_eq. discriminate.
      * rewrite lookup_insert_ne by exact Hother. congruence.
  - destruct (is_solved g) eqn:Hsolved.
    { rewrite (solve_already_solved (entering g c)) by assumption.
      cbn. congruence. }
    destruct (solve_cases answer_input user_salt game_salt clock
                (entering g c) Hsolved)
      as [[_ ->] | [(k & _ & _ & ->) | (k & _ & _ & _ & ->)]];
      cbn; try congruence.
    destruct (decide (sender c = p)) as [Hsame | Hother].
    + intros _. split; [exact Hsame | ]. split; [reflexivity | ].
      now exists answer_input, user_salt, game_salt, clock, c.
    + rewrite lookup_delete_ne by exact Hother. congruence.
Qed.

(** C2, as the code has it.  Only a [solve] that is done consumes a
    commitment: an entry that some call removes was the caller's own and the
    call a [solve] that was done; repeated, that call is rejected with
    [EGameAlreadySolved].  A [solve] that fails the self-consistency check,
    or the correctness check after it, has removed the entry when it aborts
    with [EIncorrectAnswer], and the abort undoes the removal: the ledger
    keeps the game as it was, entry included, and the repeated call is
    rejected with [EIncorrectAnswer] again.  On an unsolved game
    [ENoCommitmentFound] is the answer exactly when the caller has no
    entry. *)
Theorem commitment_consumed_by_success_only
    answer_input user_salt game_salt clock c g :
  let call := Solve answer_input user_salt game_salt clock c in
  (succeeds (exec call g) ->
   entries (guess_commitments (step call g)) !! sender c = None
   /\ rejected_with EGameAlreadySolved (exec call (step call g)))
  /\ (forall cm,
        is_solved g = false ->
        entries (guess_commitments g) !! sender c = Some cm ->
        keccak256 (answer_input ++ user_salt) <> submission_hash cm ->
        exec call g
        = Aborted (MoveAbort mosaic EIncorrectAnswer)
            {| refs := without_commitment (sender c) g; ctx := c;
               effects := no_effects |}
        /\ entries (guess_commitments (without_commitment (sender c) g))
             !! sender c = None
        /\ step call g = g
        /\ rejected_with EIncorrectAnswer (exec call (step call g)))
  /\ (is_solved g = false ->
      (rejected_with ENoCommitmentFound (exec call g)
       <-> entries (guess_commitments g) !! sender c = None))
  /\ (forall cm,
        is_solved g = false ->
        entries (guess_commitments g) !! sender c = Some cm ->
        keccak256 answer_input <> answer_hash g ->
        exec call g
        = Aborted (MoveAbort mosaic EIncorrectAnswer)
            {| refs := without_commitment (sender c) g; ctx := c;
               effects := no_effects |}
        /\ step call g = g
        /\ rejected_with EIncorrectAnswer (exec call (step call g)))
  /\ (forall other g' p cm,
        entries (guess_commitments g') !! p = Some cm ->
        entries (guess_commitments (step other g')) !! p = None ->
        caller other = p
        /\ succeeds (exec other g')
        /\ exists answer' salt' game_salt' clock' c',
             other = Solve answer' salt' game_salt' clock' c').
Proof.
  intros call. split; [ | split; [ | split; [ | split]]].
  - intros Hdone.
    destruct (solve_done_inv _ _ _ _ _ _ Hdone) as (_ & _ & _ & Heq).
    fold call in Heq.
    assert (Hstep : step call g = settled (sender c) g)
      by (unfold step; now rewrite Heq).
    rewrite Hstep. split.
    + apply lookup_delete_eq.
    + unfold rejected_with, call. now rewrite exec_solve_solved.
  - intros cm Hsolved Hentry Hne.
    assert (Heq : exec call g
                  = Aborted (MoveAbort mosaic EIncorrectAnswer)
                      {| refs := without_commitment (sender c) g; ctx := c;
                         effects := no_effects |}).
    { unfold call, exec, run.
      now rewrite (solve_commitment_mismatch (entering g c)) with (c := cm). }
    assert (Hstep : step call g = g) by (unfold step; now rewrite Heq).
    repeat split.
    + exact Heq.
    + apply lookup_delete_eq.
    + exact Hstep.
    + rewrite Hstep. unfold rejected_with. now rewrite Heq.
  - intros Hsolved. unfold rejected_with, call, exec, run.
    fold (entering g c).
    destruct (solve_cases answer_input user_salt game_salt clock
                (entering g c) Hsolved)
      as [[Hnone ->] | [(k & Hk & _ & ->) | (k & Hk & _ & _ & ->)]];
      cbn in *; unfold EIncorrectAnswer, ENoCommitmentFound;
      split; (reflexivity || congruence).
  - intros cm Hsolved Hentry Hwrong.
    assert (Heq : exec call g
                  = Aborted (MoveAbort mosaic EIncorrectAnswer)
                      {| refs := without_commitment (sender c) g; ctx := c;
                         effects := no_effects |}).
    { unfold call, exec, run. fold (entering g c).
      destruct (solve_cases answer_input user_salt game_salt clock
                  (entering g c) Hsolved)
        as [[Hnone _] | [(k & _ & _ & Hk) | (k & _ & _ & Hans & _)]];
        cbn in *; [congruence | exact Hk | contradiction]. }
    assert (Hstep : step call g = g) by (unfold step; now rewrite Heq).
    split; [exact Heq | ]. split; [exact Hstep | ].
    rewrite Hstep. unfold rejected_with. now rewrite Heq.
  - intros other g' p cm. apply removal_needs_done_solve.
Qed.

Lemma commitment_consumed_by_success_only_witness :
  (entries (guess_commitments Sample.solved) !! Sample.PLAYER_B = None
   /\ rejected_with EGameAlreadySolved (exec Sample.solve_sui Sample.solved))
  /\ (step Sample.solve_moon Sample.committed = Sample.committed
      /\ rejected_with EIncorrectAnswer
           (exec Sample.solve_moon
                 (step Sample.solve_moon Sample.committed)))
  /\ (step Sample.solve_moon
        (step (CommitGuess
                 (keccak256 (bytes_of "moon" ++ bytes_of "my_secret_salt"))
                 Sample.clock (Sample.tx Sample.PLAYER_B "commit"))
              Sample.revealed)
      = step (CommitGuess
                (keccak256 (bytes_of "moon" ++ bytes_of "my_secret_salt"))
                Sample.clock (Sample.tx Sample.PLAYER_B "commit"))
             Sample.revealed)
  /\ (caller Sample.solve_sui = Sample.PLAYER_B
      /\ succeeds (exec Sample.solve_sui Sample.committed)).
Proof.
  split; [ | split; [ | split]].
  - pose proof (commitment_consumed_by_success_only
                  (bytes_of "sui") (bytes_of "my_secret_salt") [] Sample.clock
                  (Sample.tx Sample.PLAYER_B "reveal") Sample.committed)
      as (Hsuccess & _ & _).
    apply Hsuccess. vm_compute. reflexivity.
  - pose proof (commitment_consumed_by_success_only
                  (bytes_of "moon") (bytes_of "my_secret_salt") [] Sample.clock
                  (Sample.tx Sample.PLAYER_B "reveal") Sample.committed)
      as (_ & Hfailure & _).
    destruct (Hfailure Sample.commitment_b) as (_ & _ & Hstep & Hagain).
    + vm_compute. reflexivity.
    + vm_compute. reflexivity.
    + vm_compute. discriminate.
    + split; [exact Hstep | exact Hagain].
  - pose proof (commitment_consumed_by_success_only
                  (bytes_of "moon") (bytes_of "my_secret_salt") [] Sample.clock
                  (Sample.tx Sample.PLAYER_B "reveal")
                  (step (CommitGuess
                           (keccak256
                              (bytes_of "moon" ++ bytes_of "my_secret_salt"))
                           Sample.clock (Sample.tx Sample.PLAYER_B "commit"))
                        Sample.revealed))
      as (_ & _ & _ & Hwrong & _).
    destruct (Hwrong
                {| submission_hash :=
                     keccak256 (bytes_of "moon" ++ bytes_of "my_secret_salt");
                   timestamp_ms := 0 |})
      as (_ & Hstep & _).
    + vm_compute. reflexivity.
    + vm_compute. reflexivity.
    + vm_compute. discriminate.
    + exact Hstep.
  - pose proof (commitment_consumed_by_success_only
                  (bytes_of "sui") (bytes_of "my_secret_salt") [] Sample.clock
                  (Sample.tx Sample.PLAYER_B "reveal") Sample.committed)
      as (_ & _ & _ & _ & Honly).
    destruct (Honly Sample.solve_sui Sample.committed Sample.PLAYER_B
                Sample.commitment_b)
      as (Hcaller & Hdone & _).
    + vm_compute. reflexivity.
    + vm_compute. reflexivity.
    + split; [exact Hcaller | exact Hdone].
Defined.

(** C2 as stated fails.  Player B committed to "sui"; B's [solve] with
    "moon" fails the self-consistency check, yet B's entry is still on the
    ledger and the same call, repeated, is rejected with [EIncorrectAnswer],
    not [ENoCommitmentFound].  B's [solve] with "sui" is done, and repeated
    it is rejected with [EGameAlreadySolved], not [ENoCommitmentFound]. *)
Lemma failed_solve_keeps_commitment :
  entries (guess_commitments Sample.committed) !! Sample.PLAYER_B
  = Some Sample.commitment_b
  /\ keccak256 (bytes_of "moon" ++ bytes_of "my_secret_salt")
     <> submission_hash Sample.commitment_b
  /\ rejected_with EIncorrectAnswer (exec Sample.solve_moon Sample.committed)
  /\ entries (guess_commitments (step Sample.solve_moon Sample.committed))
       !! Sample.PLAYER_B <> None
  /\ ~ rejected_with ENoCommitmentFound
         (exec Sample.solve_moon (step Sample.solve_moon Sample.committed))
  /\ succeeds (exec Sample.solve_sui Sample.committed)
  /\ ~ rejected_with ENoCommitmentFound
         (exec Sample.solve_sui (step Sample.solve_sui Sample.committed)).
Proof.
  split; [vm_compute; reflexivity | ].
  split; [vm_compute; discriminate | ].
  split; [vm_compute; reflexivity | ].
  split; [vm_compute; discriminate | ].
  split; [vm_compute; discriminate | ].
  split; [vm_compute; reflexivity | ].
  vm_compute; discriminate.
Qed.

(** C3. A rejected call of any entry point leaves the ledger as it was: the
    game record is the same in every field (commitments and pot included)
    and no effect is kept.  [request_reveal], [fulfill_reveal] and
    [commit_guess] abort before they write to the game; [solve] can abort
    after removing the caller's commitment, a write the abort discards. *)
Theorem rejected_call_changes_nothing call g f dirty :
  exec call g = Aborted f dirty ->
  step call g = g
  /\ entries (guess_commitments (step call g)) = entries (guess_commitments g)
  /\ value (pot (step call g)) = value (pot g)
  /\ commit_effects (exec call g) = no_effects
  /\ match call with
     | Solve _ _ _ _ c =>
         refs dirty = g \/ refs dirty = without_commitment (sender c) g
     | _ => refs dirty = g
     end.
Proof.
  intros Haborted.
  assert (Hstep : step call g = g) by (unfold step; now rewrite Haborted).
  rewrite Hstep. do 3 (split; [reflexivity | ]). split.
  - now rewrite Haborted.
  - exact (aborted_dirty call g f dirty Haborted).
Qed.

Lemma rejected_call_changes_nothing_witness :
  step Sample.solve_moon Sample.committed = Sample.committed
  /\ commit_effects (exec Sample.solve_moon Sample.committed) = no_effects.
Proof.
  assert (Haborted :
            exec Sample.solve_moon Sample.committed
            = Aborted (MoveAbort mosaic EIncorrectAnswer)
                {| refs := without_commitment Sample.PLAYER_B Sample.committed;
                   ctx := Sample.tx Sample.PLAYER_B "reveal";
                   effects := no_effects |})
    by (vm_compute; reflexivity).
  destruct (rejected_call_changes_nothing _ _ _ _ Haborted)
    as (Hstep & _ & _ & Heffects & _).
  split; [exact Hstep | exact Heffects].
Defined.

(** C4. Once the slot of tile [i] holds [Some key] it holds the same value
    after any calls; a further [fulfill_reveal] for tile [i] is done without
    any failure, leaves the transaction state as it found it and so emits no
    event. *)
Theorem revealed_key_is_final g (i : u64) key :
  decrypted_tile_keys g !! N.to_nat i = Some (Some key) ->
  (forall calls,
     decrypted_tile_keys (steps calls g) !! N.to_nat i = Some (Some key))
  /\ forall cap decrypted_key c,
       exec (FulfillReveal cap i decrypted_key c) g = Done tt (entering g c)
       /\ step (FulfillReveal cap i decrypted_key c) g = g
       /\ events (commit_effects (exec (FulfillReveal cap i decrypted_key c) g))
          = [].
Proof.
  intros Hslot. split.
  - intros calls. now apply steps_revealed_slot.
  - intros cap decrypted_key c.
    assert (Heq : exec (FulfillReveal cap i decrypted_key c) g
                  = Done tt (entering g c))
      by (now apply (fulfill_reveal_replay (entering g c)) with key).
    unfold step. rewrite Heq. repeat split.
Qed.

Lemma revealed_key_is_final_witness :
  decrypted_tile_keys Sample.revealed !! N.to_nat 0
  = Some (Some (bytes_of "real_aes_key_for_tile_0"))
  /\ decrypted_tile_keys Sample.solved !! N.to_nat 0
     = Some (Some (bytes_of "real_aes_key_for_tile_0"))
  /\ exec (FulfillReveal Sample.cap 0 (bytes_of "k1")
             (Sample.tx Sample.ADMIN "again")) Sample.revealed
     = Done tt (entering Sample.revealed (Sample.tx Sample.ADMIN "again")).
Proof.
  assert (Hslot : decrypted_tile_keys Sample.revealed !! N.to_nat 0
                  = Some (Some (bytes_of "real_aes_key_for_tile_0")))
    by (vm_compute; reflexivity).
  destruct (revealed_key_is_final _ _ _ Hslot) as (Hlater & Hagain).
  split; [exact Hslot | ].
  split.
  - exact (Hlater [Sample.commit_sui; Sample.solve_sui]).
  - exact (proj1 (Hagain Sample.cap (bytes_of "k1")
                    (Sample.tx Sample.ADMIN "again"))).
Defined.

(** C5. [solve] is done only if the caller has a live commitment whose
    digest is [keccak256 (answer ‖ user_salt)] for the very arguments
    passed.  The game not being solved is the precondition of [solve]: on
    such a game a caller without a commitment is rejected with
    [ENoCommitmentFound] and a caller whose digest differs with
    [EIncorrectAnswer].  A solved game rejects every [solve] with
    [EGameAlreadySolved], so none is done there either. *)
Theorem solve_needs_own_commitment answer_input user_salt game_salt clock c g :
  let out := exec (Solve answer_input user_salt game_salt clock c) g in
  (succeeds out ->
   exists cm,
     entries (guess_commitments g) !! sender c = Some cm
     /\ submission_hash cm = keccak256 (answer_input ++ user_salt))
  /\ (is_solved g = false ->
      entries (guess_commitments g) !! sender c = None ->
      rejected_with ENoCommitmentFound out)
  /\ (is_solved g = false ->
      forall cm,
        entries (guess_commitments g) !! sender c = Some cm ->
        submission_hash cm <> keccak256 (answer_input ++ user_salt) ->
        rejected_with EIncorrectAnswer out)
  /\ (is_solved g = true -> rejected_with EGameAlreadySolved out).
Proof.
  intros out. split; [ | split; [ | split]].
  - intros Hdone. unfold out in Hdone.
    destruct (solve_done_inv _ _ _ _ _ _ Hdone) as (_ & (cm & Hcm & Hown) & _).
    exists cm. split; [exact Hcm | now symmetry].
  - intros Hsolved Hnone. unfold rejected_with, out, exec, run.
    now rewrite (solve_no_commitment (entering g c)).
  - intros Hsolved cm Hcm Hne. unfold rejected_with, out, exec, run.
    rewrite (solve_commitment_mismatch (entering g c)) with (c := cm);
      [reflexivity | assumption | assumption | ].
    intros Heq. apply Hne. now symmetry.
  - intros Hsolved. unfold rejected_with, out.
    now rewrite exec_solve_solved.
Qed.

Lemma solve_needs_own_commitment_witness :
  (exists cm,
     entries (guess_commitments Sample.committed) !! Sample.PLAYER_B = Some cm
     /\ submission_hash cm
        = keccak256 (bytes_of "sui" ++ bytes_of "my_secret_salt"))
  /\ rejected_with ENoCommitmentFound
       (exec Sample.solve_sui Sample.revealed)
  /\ rejected_with EIncorrectAnswer
       (exec Sample.solve_moon Sample.committed)
  /\ rejected_with EGameAlreadySolved
       (exec Sample.solve_sui Sample.solved).
Proof.
  split; [ | split; [ | split]].
  - apply (proj1 (solve_needs_own_commitment
                    (bytes_of "sui") (bytes_of "my_secret_salt") []
                    Sample.clock (Sample.tx Sample.PLAYER_B "reveal")
                    Sample.committed)).
    vm_compute. reflexivity.
  - apply (proj1 (proj2 (solve_needs_own_commitment
                    (bytes_of "sui") (bytes_of "my_secret_salt") []
                    Sample.clock (Sample.tx Sample.PLAYER_B "reveal")
                    Sample.revealed))).
    + vm_compute. reflexivity.
    + vm_compute. reflexivity.
  - apply (proj1 (proj2 (proj2 (solve_needs_own_commitment
                    (bytes_of "moon") (bytes_of "my_secret_salt") []
                    Sample.clock (Sample.tx Sample.PLAYER_B "reveal")
                    Sample.committed)))) with Sample.commitment_b.
    + vm_compute. reflexivity.
    + vm_compute. reflexivity.
    + vm_compute. discriminate.
  - apply (proj2 (proj2 (proj2 (solve_needs_own_commitment
                    (bytes_of "sui") (bytes_of "my_secret_salt") []
                    Sample.clock (Sample.tx Sample.PLAYER_B "reveal")
                    Sample.solved)))).
    vm_compute. reflexivity.
Defined.

(** C6. The [game_salt] passed to [solve] changes nothing: two calls that
    differ only in it have the same outcome, failure and resulting state
    included.  Whether the call is done depends on the game being unsolved,
    the caller's commitment, and [keccak256 answer] being the game's
    [answer_hash]: the answer is hashed alone. *)
Theorem game_salt_is_ignored answer_input user_salt clock c g
    (game_salt1 game_salt2 : bytes) :
  exec (Solve answer_input user_salt game_salt1 clock c) g
  = exec (Solve answer_input user_salt game_salt2 clock c) g
  /\ (succeeds (exec (Solve answer_input user_salt game_salt1 clock c) g)
      <-> is_solved g = false
          /\ (exists cm,
                entries (guess_commitments g) !! sender c = Some cm
                /\ keccak256 (answer_input ++ user_salt) = submission_hash cm)
          /\ keccak256 answer_input = answer_hash g).
Proof.
  split; [reflexivity | ]. split.
  - intros Hdone.
    destruct (solve_done_inv _ _ _ _ _ _ Hdone) as (Hsolved & Hcm & Hans & _).
    now repeat split.
  - intros (Hsolved & (cm & Hcm & Hown) & Hans).
    unfold succeeds, exec, run.
    now rewrite (solve_wins (entering g c)) with (c := cm).
Qed.

(** C7. On a solved game [fulfill_reveal] for a tile whose slot is still
    [None] is not rejected: it is done, the slot then holds
    [Some decrypted_key], and the one event emitted is [TileRevealed]. *)
Theorem fulfill_reveal_after_solved cap (i : u64) decrypted_key c g :
  is_solved g = true ->
  decrypted_tile_keys g !! N.to_nat i = Some None ->
  let call := FulfillReveal cap i decrypted_key c in
  succeeds (exec call g)
  /\ ~ rejected_with EGameAlreadySolved (exec call g)
  /\ decrypted_tile_keys (step call g) !! N.to_nat i = Some (Some decrypted_key)
  /\ events (commit_effects (exec call g))
     = [TileRevealed (uid g) i decrypted_key].
Proof.
  intros _ Hslot call.
  assert (Heq : exec call g
                = Done tt
                    {| refs :=
                         set_decrypted_tile_keys
                           (<[N.to_nat i := Some decrypted_key]>
                              (decrypted_tile_keys g)) g;
                       ctx := c;
                       effects :=
                         add_event (TileRevealed (uid g) i decrypted_key)
                           no_effects |})
    by (now apply (fulfill_reveal_fills (entering g c))).
  unfold step, rejected_with, succeeds. rewrite Heq. cbn.
  split; [reflexivity | ]. split; [discriminate | ].
  split; [ | reflexivity].
  apply list_lookup_insert_eq. eapply lookup_lt_Some. exact Hslot.
Qed.

Lemma fulfill_reveal_after_solved_witness :
  is_solved Sample.solved = true
  /\ decrypted_tile_keys Sample.solved !! N.to_nat 1 = Some None
  /\ succeeds (exec (FulfillReveal Sample.cap 1 (bytes_of "k1")
                       (Sample.tx Sample.ADMIN "late")) Sample.solved)
  /\ decrypted_tile_keys
       (step (FulfillReveal Sample.cap 1 (bytes_of "k1")
                (Sample.tx Sample.ADMIN "late")) Sample.solved)
       !! N.to_nat 1 = Some (Some (bytes_of "k1")).
Proof.
  assert (Hsolved : is_solved Sample.solved = true)
    by (vm_compute; reflexivity).
  assert (Hslot : decrypted_tile_keys Sample.solved !! N.to_nat 1 = Some None)
    by (vm_compute; reflexivity).
  destruct (fulfill_reveal_after_solved Sample.cap 1 (bytes_of "k1")
              (Sample.tx Sample.ADMIN "late") Sample.solved Hsolved Hslot)
    as (Hdone & _ & Hfilled & _).
  split; [exact Hsolved | ].
  split; [exact Hslot | ].
  split; [exact Hdone | exact Hfilled].
Defined.

(** C8. [request_reveal] with a payment whose value is not [TILE_PRICE] is
    rejected whatever the tile, the caller and the game: with
    [EGameAlreadySolved] on a solved game, with [EInvalidPayment] otherwise;
    the game, its pot included, stays as it was. *)
Theorem wrong_payment_is_rejected tile_index payment c g :
  coin_value payment <> TILE_PRICE ->
  let call := RequestReveal tile_index payment c in
  rejected_with (if is_solved g then EGameAlreadySolved else EInvalidPayment)
    (exec call g)
  /\ step call g = g
  /\ pot (step call g) = pot g.
Proof.
  intros Hpay call.
  assert (Heq : exec call g
                = Aborted
                    (MoveAbort mosaic
                       (if is_solved g then EGameAlreadySolved
                        else EInvalidPayment))
                    (entering g c)).
  { unfold call, exec, run. fold (entering g c).
    destruct (is_solved g) eqn:Hsolved.
    - now apply (request_reveal_already_solved (entering g c)).
    - now apply (request_reveal_wrong_payment (entering g c)). }
  assert (Hstep : step call g = g) by (unfold step; now rewrite Heq).
  unfold rejected_with. rewrite Hstep, Heq. repeat split.
Qed.

Lemma wrong_payment_is_rejected_witness :
  coin_value (Sample.coin 1000000000) <> TILE_PRICE
  /\ rejected_with EInvalidPayment
       (exec (RequestReveal 0 (Sample.coin 1000000000)
                (Sample.tx Sample.PLAYER_A "request")) Sample.created)
  /\ step (RequestReveal 0 (Sample.coin 1000000000)
             (Sample.tx Sample.PLAYER_A "request")) Sample.created
     = Sample.created.
Proof.
  assert (Hpay : coin_value (Sample.coin 1000000000) <> TILE_PRICE)
    by (vm_compute; discriminate).
  destruct (wrong_payment_is_rejected 0 (Sample.coin 1000000000)
              (Sample.tx Sample.PLAYER_A "request") Sample.created Hpay)
    as (Hrejected & Hstep & _).
  split; [exact Hpay | ].
  split; [exact Hrejected | exact Hstep].
Defined.

(** C9. In every game that exists, whatever calls it has been through,
    [is_solved] implies that [winner] is set and the pot is zero. *)
Theorem solved_means_paid_out g :
  reachable g ->
  is_solved g = true ->
  is_Some (winner g) /\ value (pot g) = 0.
Proof. intros Hreach. exact (reachable_paid_out g Hreach). Qed.

Lemma solved_means_paid_out_witness :
  reachable Sample.solved
  /\ is_solved Sample.solved = true
  /\ is_Some (winner Sample.solved)
  /\ value (pot Sample.solved) = 0.
Proof.
  assert (Hsolved : is_solved Sample.solved = true)
    by (vm_compute; reflexivity).
  destruct (solved_means_paid_out Sample.solved sample_solved_reachable Hsolved)
    as (Hwinner & Hpot).
  split; [exact sample_solved_reachable | ].
  split; [exact Hsolved | ].
  split; [exact Hwinner | exact Hpot].
Defined.

(** C10. [fulfill_reveal] has no bounds check of its own.  On a game that
    exists, a [tile_index] of [TOTAL_TILES] or more makes the vector borrow
    fail, which is not an abort with [EInvalidTileIndex], before anything is
    written, and the ledger keeps the game as it was; a [tile_index] below
    [TOTAL_TILES] is within the vector and the call is done. *)
Theorem fulfill_reveal_bounds cap (tile_index : u64) decrypted_key c g :
  reachable g ->
  let call := FulfillReveal cap tile_index decrypted_key c in
  (TOTAL_TILES <= tile_index ->
   exec call g = Aborted VectorIndexOutOfBounds (entering g c)
   /\ ~ rejected_with EInvalidTileIndex (exec call g)
   /\ step call g = g)
  /\ (tile_index < TOTAL_TILES ->
      is_Some (decrypted_tile_keys g !! N.to_nat tile_index)
      /\ succeeds (exec call g)).
Proof.
  intros Hreach call.
  pose proof (reachable_length g Hreach) as Hlen.
  unfold TOTAL_TILES. split.
  - intros Hge.
    assert (Heq : exec call g = Aborted VectorIndexOutOfBounds (entering g c)).
    { apply (fulfill_reveal_out_of_range (entering g c)).
      apply lookup_ge_None. cbn. lia. }
    unfold step, rejected_with. rewrite Heq. cbn.
    split; [reflexivity | ]. split; [discriminate | reflexivity].
  - intros Hlt.
    assert (Hin : is_Some (decrypted_tile_keys g !! N.to_nat tile_index)).
    { apply lookup_lt_is_Some. lia. }
    split; [exact Hin | ].
    unfold succeeds, call, exec, run. fold (entering g c).
    destruct (fulfill_reveal_cases cap tile_index decrypted_key (entering g c))
      as [[Hnone _] | [(key & _ & ->) | [_ ->]]]; try reflexivity.
    cbn in Hnone. rewrite Hnone in Hin. now destruct Hin.
Qed.

Lemma fulfill_reveal_bounds_witness :
  reachable Sample.committed
  /\ exec (FulfillReveal Sample.cap 100 (bytes_of "k")
             (Sample.tx Sample.ADMIN "far")) Sample.committed
     = Aborted VectorIndexOutOfBounds
         (entering Sample.committed (Sample.tx Sample.ADMIN "far"))
  /\ succeeds (exec (FulfillReveal Sample.cap 99 (bytes_of "k")
                       (Sample.tx Sample.ADMIN "far")) Sample.committed).
Proof.
  split; [exact sample_committed_reachable | ]. split.
  - apply (proj1 (fulfill_reveal_bounds Sample.cap 100 (bytes_of "k")
                    (Sample.tx Sample.ADMIN "far") Sample.committed
                    sample_committed_reachable)).
    vm_compute. discriminate.
  - apply (proj2 (fulfill_reveal_bounds Sample.cap 99 (bytes_of "k")
                    (Sample.tx Sample.ADMIN "far") Sample.committed
                    sample_committed_reachable)).
    vm_compute. reflexivity.
Defined.

(** * More on [create_game] *)

Lemma convert_loop (done todo : list bytes) (acc : list MoveString) :
  while_from (length todo) (N.of_nat (length done))
    (convert_id (done ++ todo)) acc
  = if forallb internal_check_utf8 todo
    then Ok (acc ++ map Build_MoveString todo)
    else Err (MoveAbort std_string EINVALID_UTF8).
Proof.
  revert done acc. induction todo as [ | id todo IH]; intros done acc.
  - cbn. now rewrite app_nil_r.
  - cbn [length while_from forallb map].
    unfold convert_id at 1, vector_borrow.
    rewrite Nat2N.id, list_lookup_middle by reflexivity.
    unfold string_utf8. destruct (internal_check_utf8 id); [ | reflexivity].
    cbn [andb].
    replace (N.of_nat (length done) + 1) with (N.of_nat (length (done ++ [id])))
      by (rewrite length_app; cbn; lia).
    replace (done ++ id :: todo) with ((done ++ [id]) ++ todo)
      by (now rewrite <- app_assoc).
    rewrite IH. now rewrite <- app_assoc.
Qed.

Lemma convert_all (ids : list bytes) :
  length ids = 100%nat ->
  while_below TOTAL_TILES (convert_id ids) []
  = if forallb internal_check_utf8 ids
    then Ok (map Build_MoveString ids)
    else Err (MoveAbort std_string EINVALID_UTF8).
Proof.
  intros Hlen. unfold while_below.
  change (N.to_nat TOTAL_TILES) with 100%nat. rewrite <- Hlen.
  exact (convert_loop [] ids []).
Qed.

Lemma vector_length_100 {A} (v : list A) :
  (vector_length v =? TOTAL_TILES) = true <-> length v = 100%nat.
Proof.
  unfold vector_length, TOTAL_TILES. rewrite N.eqb_eq. lia.
Qed.

Lemma create_game_outcome digest blob_id keys ids c :
  run (create_game digest blob_id keys ids) tt c
  = if negb (vector_length keys =? TOTAL_TILES)
       || negb (vector_length ids =? TOTAL_TILES)
    then Aborted (MoveAbort mosaic EInvalidPayment)
           {| refs := tt; ctx := c; effects := no_effects |}
    else if forallb internal_check_utf8 ids
    then Done tt
           {| refs := tt; ctx := count_id (count_id c);
              effects :=
                add_shared (new_game digest blob_id keys ids c)
                  (add_event (GameCreated (fresh_id c)) no_effects) |}
    else Aborted (MoveAbort std_string EINVALID_UTF8)
           {| refs := tt; ctx := c; effects := no_effects |}.
Proof.
  unfold run, create_game, bind, assert_, abort, ret.
  destruct (vector_length keys =? TOTAL_TILES) eqn:Hkeys; [ | reflexivity].
  destruct (vector_length ids =? TOTAL_TILES) eqn:Hids; [ | reflexivity].
  cbn [negb orb].
  fold (convert_id ids). rewrite convert_all by now apply vector_length_100.
  destruct (forallb internal_check_utf8 ids); [ | reflexivity].
  rewrite none_loop. reflexivity.
Qed.

(** X1. [create_game] wants exactly 100 encrypted keys and 100 encryption
    ids: with any other number of either it aborts with [EInvalidPayment]
    before anything else, so no id is created, no event emitted and no game
    shared. *)
Theorem create_game_wants_100_of_each digest blob_id keys ids c :
  length keys <> 100%nat \/ length ids <> 100%nat ->
  run (create_game digest blob_id keys ids) tt c
  = Aborted (MoveAbort mosaic EInvalidPayment)
      {| refs := tt; ctx := c; effects := no_effects |}.
Proof.
  intros Hlen. rewrite create_game_outcome.
  destruct (vector_length keys =? TOTAL_TILES) eqn:Hkeys; [ | reflexivity].
  destruct (vector_length ids =? TOTAL_TILES) eqn:Hids; [ | reflexivity].
  apply vector_length_100 in Hkeys, Hids. tauto.
Qed.

Lemma create_game_wants_100_of_each_witness :
  run (create_game (keccak256 (bytes_of "sui")) Sample.blob
         (repeat (bytes_of "key") 99) (repeat (bytes_of "tile") 100))
      tt (Sample.tx Sample.ADMIN "create")
  = Aborted (MoveAbort mosaic EInvalidPayment)
      {| refs := tt; ctx := Sample.tx Sample.ADMIN "create";
         effects := no_effects |}.
Proof.
  apply create_game_wants_100_of_each. left. vm_compute. discriminate.
Defined.

(** X2. With 100 keys and 100 ids, an encryption id that is not well-formed
    UTF-8 makes [create_game] abort inside [string::utf8], with that
    module's [EINVALID_UTF8]; nothing is shared. *)
Theorem create_game_wants_utf8_ids digest blob_id keys ids c id :
  length keys = 100%nat ->
  length ids = 100%nat ->
  In id ids ->
  internal_check_utf8 id = false ->
  run (create_game digest blob_id keys ids) tt c
  = Aborted (MoveAbort std_string EINVALID_UTF8)
      {| refs := tt; ctx := c; effects := no_effects |}.
Proof.
  intros Hkeys Hids Hin Hbad. rewrite create_game_outcome.
  apply vector_length_100 in Hkeys, Hids. rewrite Hkeys, Hids. cbn [negb orb].
  destruct (forallb internal_check_utf8 ids) eqn:Hall; [ | reflexivity].
  rewrite forallb_forall in Hall. specialize (Hall id Hin). congruence.
Qed.

Lemma create_game_wants_utf8_ids_witness :
  run (create_game (keccak256 (bytes_of "sui")) Sample.blob
         (repeat (bytes_of "key") 100) (repeat [xff] 100))
      tt (Sample.tx Sample.ADMIN "create")
  = Aborted (MoveAbort std_string EINVALID_UTF8)
      {| refs := tt; ctx := Sample.tx Sample.ADMIN "create";
         effects := no_effects |}.
Proof.
  apply create_game_wants_utf8_ids with (id := [xff]).
  - vm_compute. reflexivity.
  - vm_compute. reflexivity.
  - left. reflexivity.
  - vm_compute. reflexivity.
Defined.

(** X3. With 100 keys and 100 ids, all ids well-formed UTF-8, [create_game]
    is done: it shares one game, owned by nobody, whose creator is the
    sender, with the given digest, blob id and keys, the ids as strings, 100
    empty tile slots, an empty pot, no winner and no commitment, and it emits
    [GameCreated] with the id of that game. *)
Theorem create_game_shares_a_fresh_game digest blob_id keys ids c :
  length keys = 100%nat ->
  length ids = 100%nat ->
  Forall (fun id => internal_check_utf8 id = true) ids ->
  run (create_game digest blob_id keys ids) tt c
  = Done tt
      {| refs := tt; ctx := count_id (count_id c);
         effects :=
           {| events := [GameCreated (fresh_id c)];
              transferred := [];
              shared := [new_game digest blob_id keys ids c];
              deleted := [] |} |}.
Proof.
  intros Hkeys Hids Hutf8. rewrite create_game_outcome.
  apply vector_length_100 in Hkeys, Hids. rewrite Hkeys, Hids. cbn [negb orb].
  replace (forallb internal_check_utf8 ids) with true; [reflexivity | ].
  symmetry. apply forallb_forall. intros id Hin.
  rewrite Forall_forall in Hutf8. apply Hutf8. now apply list_elem_of_In.
Qed.

Lemma create_game_shares_a_fresh_game_witness :
  Sample.creation
  = Done tt
      {| refs := tt;
         ctx := count_id (count_id (Sample.tx Sample.ADMIN "create"));
         effects :=
           {| events := [GameCreated (fresh_id (Sample.tx Sample.ADMIN "create"))];
              transferred := [];
              shared :=
                [new_game (keccak256 (bytes_of "sui")) Sample.blob
                   (repeat (bytes_of "encrypted_blob_key") 100)
                   (repeat (bytes_of "tile") 100)
                   (Sample.tx Sample.ADMIN "create")];
              deleted := [] |} |}.
Proof.
  apply create_game_shares_a_fresh_game.
  - vm_compute. reflexivity.
  - vm_compute. reflexivity.
  - apply Forall_forall. intros id Hin.
    apply list_elem_of_In, repeat_spec in Hin. subst id.
    vm_compute. reflexivity.
Defined.

(** * More on [request_reveal] *)

Lemma reachable_slot g (i : u64) :
  reachable g -> i < TOTAL_TILES ->
  is_Some (decrypted_tile_keys g !! N.to_nat i).
Proof.
  intros Hreach Hlt. apply lookup_lt_is_Some.
  rewrite (reachable_length g Hreach). unfold TOTAL_TILES in Hlt. lia.
Qed.

Lemma request_reveal_done_step tile_index payment c g :
  succeeds (exec (RequestReveal tile_index payment c) g) ->
  is_solved g = false
  /\ coin_value payment = TILE_PRICE
  /\ tile_index < TOTAL_TILES
  /\ decrypted_tile_keys g !! N.to_nat tile_index = Some None
  /\ exec (RequestReveal tile_index payment c) g
     = Done tt
         {| refs := set_pot {| value := value (pot g) + TILE_PRICE |} g;
            ctx := c;
            effects :=
              add_event (TileRevealRequested (uid g) tile_index (sender c))
                (add_deleted (coin_id payment) no_effects) |}.
Proof.
  unfold succeeds, exec, run. fold (entering g c).
  destruct (request_reveal_cases tile_index payment (entering g c))
    as [[code ->] | [-> | [-> | (Hsolved & Hpay & Hidx & Hslot & ->)]]];
    try discriminate.
  intros _. repeat split; assumption.
Qed.

(** X4. On a game that exists, [request_reveal] fails on the first of its
    checks that does not hold, in the order solved game, wrong payment, tile
    index of 100 or more, tile already revealed, and then only if the pot
    would exceed a [u64]; the bounds check keeps the vector borrow from ever
    failing. *)
Theorem request_reveal_failure_order tile_index payment c g :
  reachable g ->
  failure_of (exec (RequestReveal tile_index payment c) g)
  = if is_solved g then Some (MoveAbort mosaic EGameAlreadySolved)
    else if negb (coin_value payment =? TILE_PRICE)
    then Some (MoveAbort mosaic EInvalidPayment)
    else if negb (tile_index <? TOTAL_TILES)
    then Some (MoveAbort mosaic EInvalidTileIndex)
    else match decrypted_tile_keys g !! N.to_nat tile_index with
         | Some (Some _) => Some (MoveAbort mosaic ETileAlreadyRevealed)
         | _ => if value (pot g) + TILE_PRICE <=? MAX_U64 then None
                else Some ArithmeticError
         end.
Proof.
  intros Hreach. unfold exec, run. fold (entering g c).
  destruct (is_solved g) eqn:Hsolved.
  { now rewrite (request_reveal_already_solved (entering g c)). }
  destruct (coin_value payment =? TILE_PRICE) eqn:Hpay; cbn [negb].
  2: { apply N.eqb_neq in Hpay.
       now rewrite (request_reveal_wrong_payment (entering g c)). }
  apply N.eqb_eq in Hpay.
  destruct (tile_index <? TOTAL_TILES) eqn:Hidx; cbn [negb].
  2: { apply N.ltb_ge in Hidx.
       now rewrite (request_reveal_bad_index (entering g c)). }
  apply N.ltb_lt in Hidx.
  destruct (reachable_slot g tile_index Hreach Hidx) as [[key | ] Hslot];
    rewrite Hslot.
  { now rewrite (request_reveal_already_revealed (entering g c)) with (key := key). }
  destruct (value (pot g) + TILE_PRICE <=? MAX_U64) eqn:Hfit.
  - apply N.leb_le in Hfit.
    now rewrite (request_reveal_paid (entering g c)).
  - apply N.leb_gt in Hfit.
    now rewrite (request_reveal_overflow (entering g c)).
Qed.

Lemma request_reveal_failure_order_witness :
  failure_of (exec (RequestReveal 100 (Sample.coin 5)
                      (Sample.tx Sample.PLAYER_A "request")) Sample.revealed)
  = Some (MoveAbort mosaic EInvalidPayment)
  /\ failure_of (exec (RequestReveal 0 (Sample.coin TILE_PRICE)
                         (Sample.tx Sample.PLAYER_A "request")) Sample.revealed)
     = Some (MoveAbort mosaic ETileAlreadyRevealed).
Proof.
  assert (Hreach : reachable Sample.revealed)
    by (do 2 constructor; exact sample_created_reachable).
  split.
  - rewrite (request_reveal_failure_order _ _ _ _ Hreach).
    vm_compute. reflexivity.
  - rewrite (request_reveal_failure_order _ _ _ _ Hreach).
    vm_compute. reflexivity.
Defined.

(** X5. A [request_reveal] that is done adds exactly [TILE_PRICE] to the pot
    and changes no other field of the game: the tile it names is still
    unrevealed.  It deletes the coin's id and emits one
    [TileRevealRequested] naming the game, the tile and the sender. *)
Theorem request_reveal_pays_the_pot tile_index payment c g :
  succeeds (exec (RequestReveal tile_index payment c) g) ->
  let call := RequestReveal tile_index payment c in
  step call g = set_pot {| value := value (pot g) + TILE_PRICE |} g
  /\ decrypted_tile_keys (step call g) !! N.to_nat tile_index = Some None
  /\ commit_effects (exec call g)
     = {| events := [TileRevealRequested (uid g) tile_index (sender c)];
          transferred := [];
          shared := [];
          deleted := [coin_id payment] |}.
Proof.
  intros Hdone call.
  destruct (request_reveal_done_step _ _ _ _ Hdone)
    as (_ & _ & _ & Hslot & Heq).
  fold call in Heq. unfold step. rewrite Heq. cbn.
  split; [reflexivity | ]. split; [exact Hslot | reflexivity].
Qed.

Lemma request_reveal_pays_the_pot_witness :
  succeeds (exec Sample.request_0 Sample.created)
  /\ step Sample.request_0 Sample.created
     = set_pot {| value := value (pot Sample.created) + TILE_PRICE |}
         Sample.created.
Proof.
  assert (Hdone : succeeds (exec Sample.request_0 Sample.created))
    by (vm_compute; reflexivity).
  split; [exact Hdone | ].
  exact (proj1 (request_reveal_pays_the_pot _ _ _ _ Hdone)).
Defined.

(** X6. The game keeps no record of a request.  After a [request_reveal]
    that is done, and until the tile is fulfilled, a further [request_reveal]
    for the same tile at the tile price is done as well, from any sender, and
    the pot holds both payments. *)
Theorem unfulfilled_tile_is_charged_again tile_index payment c payment' c' g :
  succeeds (exec (RequestReveal tile_index payment c) g) ->
  coin_value payment' = TILE_PRICE ->
  value (pot g) + 2 * TILE_PRICE <= MAX_U64 ->
  let g1 := step (RequestReveal tile_index payment c) g in
  succeeds (exec (RequestReveal tile_index payment' c') g1)
  /\ value (pot (step (RequestReveal tile_index payment' c') g1))
     = value (pot g) + 2 * TILE_PRICE.
Proof.
  intros Hdone Hpay' Hfit g1.
  destruct (request_reveal_done_step _ _ _ _ Hdone)
    as (Hsolved & _ & Hidx & Hslot & Heq).
  assert (Hg1 : g1 = set_pot {| value := value (pot g) + TILE_PRICE |} g)
    by (unfold g1, step; now rewrite Heq).
  clearbody g1. subst g1.
  set (g1 := set_pot {| value := value (pot g) + TILE_PRICE |} g).
  assert (Heq' : exec (RequestReveal tile_index payment' c') g1
                 = Done tt
                     {| refs := set_pot
                                  {| value := value (pot g1) + TILE_PRICE |} g1;
                        ctx := c';
                        effects :=
                          add_event
                            (TileRevealRequested (uid g1) tile_index (sender c'))
                            (add_deleted (coin_id payment') no_effects) |}).
  { apply (request_reveal_paid (entering g1 c')); cbn; try assumption.
    unfold TILE_PRICE in *. lia. }
  unfold succeeds, step. rewrite Heq'. split; [reflexivity | ].
  cbn. unfold TILE_PRICE. lia.
Qed.

Lemma unfulfilled_tile_is_charged_again_witness :
  succeeds (exec (RequestReveal 0 (Sample.coin TILE_PRICE)
                    (Sample.tx Sample.PLAYER_B "request again"))
                 Sample.requested)
  /\ value (pot (step (RequestReveal 0 (Sample.coin TILE_PRICE)
                         (Sample.tx Sample.PLAYER_B "request again"))
                      Sample.requested))
     = value (pot Sample.created) + 2 * TILE_PRICE.
Proof.
  apply (unfulfilled_tile_is_charged_again 0 (Sample.coin TILE_PRICE)
           (Sample.tx Sample.PLAYER_A "request") (Sample.coin TILE_PRICE)
           (Sample.tx Sample.PLAYER_B "request again") Sample.created).
  - vm_compute. reflexivity.
  - vm_compute. reflexivity.
  - vm_compute. discriminate.
Defined.

(** X7. A revealed tile is never charged for again: once the slot of tile
    [i] is filled, after any calls no [request_reveal] for [i] is done,
    whatever the payment and the sender, so none adds to the pot. *)
Theorem revealed_tile_is_not_charged (i : u64) key later payment c g :
  decrypted_tile_keys g !! N.to_nat i = Some (Some key) ->
  let g' := steps later g in
  ~ succeeds (exec (RequestReveal i payment c) g')
  /\ step (RequestReveal i payment c) g' = g'
  /\ deposited (RequestReveal i payment c) g' = 0.
Proof.
  intros Hslot g'.
  assert (Hslot' : decrypted_tile_keys g' !! N.to_nat i = Some (Some key))
    by now apply steps_revealed_slot.
  assert (Hnot : ~ succeeds (exec (RequestReveal i payment c) g')).
  { intros Hdone.
    destruct (request_reveal_done_step _ _ _ _ Hdone) as (_ & _ & _ & Hnone & _).
    congruence. }
  split; [exact Hnot | ].
  unfold succeeds, step, deposited in *.
  destruct (exec (RequestReveal i payment c) g'); cbn in *; [ | now split].
  now contradiction Hnot.
Qed.

Lemma revealed_tile_is_not_charged_witness :
  ~ succeeds (exec (RequestReveal 0 (Sample.coin TILE_PRICE)
                      (Sample.tx Sample.PLAYER_A "request"))
                   (steps [Sample.commit_sui] Sample.revealed)).
Proof.
  apply (revealed_tile_is_not_charged 0
           (bytes_of "real_aes_key_for_tile_0") [Sample.commit_sui]
           (Sample.coin TILE_PRICE) (Sample.tx Sample.PLAYER_A "request")
           Sample.revealed).
  vm_compute. reflexivity.
Defined.

(** * Money in, money out *)

Lemma steps_cons call calls g :
  steps (call :: calls) g = steps calls (step call g).
Proof. reflexivity. Qed.

Lemma step_accounting call g :
  value (pot (step call g)) + withdrawn call g
  = value (pot g) + deposited call g.
Proof.
  destruct call as [tile_index payment c | cap tile_index decrypted_key c
                    | submission_hash clock c
                    | answer_input user_salt game_salt clock c];
    unfold step, withdrawn, deposited, exec, run; fold (entering g c).
  - destruct (request_reveal_cases tile_index payment (entering g c))
      as [[code ->] | [-> | [-> | (_ & Hpay & _ & _ & ->)]]]; cbn; lia.
  - destruct (fulfill_reveal_cases cap tile_index decrypted_key (entering g c))
      as [[_ ->] | [(key & _ & ->) | [_ ->]]]; cbn; lia.
  - destruct (is_solved g) eqn:Hsolved.
    + rewrite (commit_guess_already_solved (entering g c)) by assumption.
      cbn. lia.
    + rewrite (commit_guess_stores (entering g c)) by assumption. cbn. lia.
  - destruct (is_solved g) eqn:Hsolved.
    { rewrite (solve_already_solved (entering g c)) by assumption. cbn. lia. }
    destruct (solve_cases answer_input user_salt game_salt clock
                (entering g c) Hsolved)
      as [[_ ->] | [(k & _ & _ & ->) | (k & _ & _ & _ & ->)]]; cbn; try lia.
    unfold coin_value, balance_value. cbn. lia.
Qed.

(** A call hands out coins only by solving the game. *)
Lemma withdrawn_solves call g :
  is_solved (step call g) = false -> withdrawn call g = 0.
Proof.
  destruct call as [tile_index payment c | cap tile_index decrypted_key c
                    | submission_hash clock c
                    | answer_input user_salt game_salt clock c];
    unfold step, withdrawn, exec, run; fold (entering g c).
  - destruct (request_reveal_cases tile_index payment (entering g c))
      as [[code ->] | [-> | [-> | (_ & _ & _ & _ & ->)]]]; reflexivity.
  - destruct (fulfill_reveal_cases cap tile_index decrypted_key (entering g c))
      as [[_ ->] | [(key & _ & ->) | [_ ->]]]; reflexivity.
  - destruct (is_solved g) eqn:Hsolved.
    + now rewrite (commit_guess_already_solved (entering g c)).
    + now rewrite (commit_guess_stores (entering g c)).
  - destruct (is_solved g) eqn:Hsolved.
    { now rewrite (solve_already_solved (entering g c)). }
    destruct (solve_cases answer_input user_salt game_salt clock
                (entering g c) Hsolved)
      as [[_ ->] | [(k & _ & _ & ->) | (k & _ & _ & _ & ->)]];
      cbn; try reflexivity. discriminate.
Qed.

Lemma step_unsolved call g :
  is_solved (step call g) = false -> is_solved g = false.
Proof.
  intros Hafter. destruct (is_solved g) eqn:Hsolved; [ | reflexivity].
  rewrite (change_is_solved _ _ (step_change call g) Hsolved) in Hafter.
  discriminate.
Qed.

Lemma unsolved_nothing_withdrawn calls g :
  is_solved (steps calls g) = false -> total_withdrawn calls g = 0.
Proof.
  revert g. induction calls as [ | call calls IH]; intros g Hun.
  - reflexivity.
  - rewrite steps_cons in Hun. cbn [total_withdrawn].
    rewrite (IH _ Hun).
    assert (Hstep : is_solved (step call g) = false).
    { destruct (is_solved (step call g)) eqn:Hs; [ | reflexivity].
      rewrite (steps_is_solved calls _ Hs) in Hun. discriminate. }
    rewrite (withdrawn_solves _ _ Hstep). reflexivity.
Qed.

Lemma conservation calls g :
  value (pot (steps calls g)) + total_withdrawn calls g
  = value (pot g) + total_deposited calls g.
Proof.
  revert g. induction calls as [ | call calls IH]; intros g.
  - cbn. lia.
  - rewrite steps_cons. cbn [total_withdrawn total_deposited].
    pose proof (IH (step call g)) as Hrest.
    pose proof (step_accounting call g) as Hnow. lia.
Qed.

(** X8. Funds are conserved: over any sequence of calls on any game, what
    the pot holds at the end plus what the calls handed out is what the pot
    held at the start plus what the calls that were done paid in. *)
Theorem funds_are_conserved calls g :
  value (pot (steps calls g)) + total_withdrawn calls g
  = value (pot g) + total_deposited calls g.
Proof. exact (conservation calls g). Qed.

(** X9. Starting from an empty pot on an unsolved game, as [create_game]
    leaves it: while the game is unsolved nothing has been handed out and
    the pot holds all that was paid in; once it is solved the pot is empty
    and what was handed out is all that was paid in. *)
Theorem prize_is_all_that_was_paid calls g :
  is_solved g = false ->
  value (pot g) = 0 ->
  if is_solved (steps calls g)
  then value (pot (steps calls g)) = 0
       /\ total_withdrawn calls g = total_deposited calls g
  else total_withdrawn calls g = 0
       /\ value (pot (steps calls g)) = total_deposited calls g.
Proof.
  intros Hunsolved Hempty.
  assert (Hpaid : paid_out (steps calls g)).
  { induction calls as [ | call calls IH] using rev_ind.
    - unfold paid_out. cbn. congruence.
    - rewrite steps_snoc.
      exact (change_paid_out _ _ (step_change call _) IH). }
  pose proof (conservation calls g) as Hsum.
  destruct (is_solved (steps calls g)) eqn:Hend.
  - destruct (Hpaid Hend) as [_ Hzero]. split; [exact Hzero | lia].
  - pose proof (unsolved_nothing_withdrawn calls g Hend) as Hnone.
    split; [exact Hnone | lia].
Qed.

Lemma prize_is_all_that_was_paid_witness :
  total_withdrawn
    [Sample.request_0; Sample.fulfill_0; Sample.commit_sui; Sample.solve_sui]
    Sample.created
  = total_deposited
      [Sample.request_0; Sample.fulfill_0; Sample.commit_sui; Sample.solve_sui]
      Sample.created.
Proof.
  pose proof (prize_is_all_that_was_paid
                [Sample.request_0; Sample.fulfill_0; Sample.commit_sui;
                 Sample.solve_sui] Sample.created eq_refl eq_refl) as H.
  replace (is_solved
             (steps [Sample.request_0; Sample.fulfill_0; Sample.commit_sui;
                     Sample.solve_sui] Sample.created))
    with true in H by (vm_compute; reflexivity).
  exact (proj2 H).
Defined.

(** * What stays put *)

Lemma change_fixed_fields g g' :
  change g g' ->
  uid g' = uid g
  /\ creator g' = creator g
  /\ answer_hash g' = answer_hash g
  /\ walrus_blob_id g' = walrus_blob_id g
  /\ encrypted_tile_keys g' = encrypted_tile_keys g
  /\ encryption_ids g' = encryption_ids g
  /\ table_id (guess_commitments g') = table_id (guess_commitments g).
Proof. destruct 1; cbn; repeat split. Qed.

Lemma change_solved_frozen g g' :
  change g g' ->
  is_solved g = true ->
  pot g' = pot g /\ winner g' = winner g
  /\ guess_commitments g' = guess_commitments g.
Proof. destruct 1; cbn; intros Hsolved; try congruence; repeat split. Qed.

Lemma steps_fixed_fields calls g :
  uid (steps calls g) = uid g
  /\ creator (steps calls g) = creator g
  /\ answer_hash (steps calls g) = answer_hash g
  /\ walrus_blob_id (steps calls g) = walrus_blob_id g
  /\ encrypted_tile_keys (steps calls g) = encrypted_tile_keys g
  /\ encryption_ids (steps calls g) = encryption_ids g
  /\ table_id (guess_commitments (steps calls g))
     = table_id (guess_commitments g)
  /\ length (decrypted_tile_keys (steps calls g))
     = length (decrypted_tile_keys g).
Proof.
  induction calls as [ | call calls IH] using rev_ind.
  - repeat split.
  - rewrite steps_snoc.
    destruct (change_fixed_fields _ _ (step_change call (steps calls g)))
      as (H1 & H2 & H3 & H4 & H5 & H6 & H7).
    pose proof (change_length _ _ (step_change call (steps calls g))) as H8.
    destruct IH as (I1 & I2 & I3 & I4 & I5 & I6 & I7 & I8).
    repeat split; congruence.
Qed.

(** X10. No call writes the fields set at creation: after any sequence of
    calls the game has the id, creator, answer digest, blob id, encrypted
    keys, encryption ids, commitment-table id and number of tile slots it
    started with. *)
Theorem creation_fields_never_change calls g :
  uid (steps calls g) = uid g
  /\ creator (steps calls g) = creator g
  /\ answer_hash (steps calls g) = answer_hash g
  /\ walrus_blob_id (steps calls g) = walrus_blob_id g
  /\ encrypted_tile_keys (steps calls g) = encrypted_tile_keys g
  /\ encryption_ids (steps calls g) = encryption_ids g
  /\ table_id (guess_commitments (steps calls g))
     = table_id (guess_commitments g)
  /\ length (decrypted_tile_keys (steps calls g))
     = length (decrypted_tile_keys g).
Proof. exact (steps_fixed_fields calls g). Qed.

Lemma steps_solved_frozen calls g :
  is_solved g = true ->
  is_solved (steps calls g) = true
  /\ winner (steps calls g) = winner g
  /\ pot (steps calls g) = pot g
  /\ guess_commitments (steps calls g) = guess_commitments g.
Proof.
  intros Hsolved. induction calls as [ | call calls IH] using rev_ind.
  - repeat split. exact Hsolved.
  - rewrite steps_snoc. destruct IH as (I1 & I2 & I3 & I4).
    destruct (change_solved_frozen _ _ (step_change call (steps calls g)) I1)
      as (H1 & H2 & H3).
    pose proof (change_is_solved _ _ (step_change call (steps calls g)) I1).
    repeat split; congruence.
Qed.

(** X11. A solved game is frozen but for its tiles: after any sequence of
    calls it is still solved, with the same winner, the same pot and the
    same commitments, stale entries of other players included. *)
Theorem solved_game_is_frozen calls g :
  is_solved g = true ->
  is_solved (steps calls g) = true
  /\ winner (steps calls g) = winner g
  /\ pot (steps calls g) = pot g
  /\ guess_commitments (steps calls g) = guess_commitments g.
Proof. exact (steps_solved_frozen calls g). Qed.

Lemma solved_game_is_frozen_witness :
  is_solved Sample.solved = true
  /\ winner (steps [Sample.commit_sui; Sample.request_0; Sample.solve_moon]
               Sample.solved)
     = winner Sample.solved.
Proof.
  assert (Hsolved : is_solved Sample.solved = true)
    by (vm_compute; reflexivity).
  split; [exact Hsolved | ].
  exact (proj1 (proj2 (solved_game_is_frozen
                         [Sample.commit_sui; Sample.request_0;
                          Sample.solve_moon] Sample.solved Hsolved))).
Defined.

Lemma change_unsolved_no_winner g g' :
  change g g' ->
  (is_solved g = false -> winner g = None) ->
  is_solved g' = false -> winner g' = None.
Proof. destruct 1; cbn; intros Hinv Hun; try tauto; congruence. Qed.

(** X12. On a game that exists, an unsolved game has no winner: [winner] is
    written by the settlement of [solve] and by nothing else. *)
Theorem unsolved_game_has_no_winner g :
  reachable g ->
  is_solved g = false ->
  winner g = None.
Proof.
  induction 1 as [digest blob keys ids c s g Hrun Hin | g call _ IH].
  - destruct (create_game_shares _ _ _ _ _ _ _ Hrun Hin)
      as (_ & _ & _ & Hwinner & _).
    intros _. exact Hwinner.
  - exact (change_unsolved_no_winner _ _ (step_change call g) IH).
Qed.

Lemma unsolved_game_has_no_winner_witness :
  winner Sample.committed = None.
Proof.
  apply unsolved_game_has_no_winner.
  - exact sample_committed_reachable.
  - vm_compute. reflexivity.
Defined.

(** * More on [fulfill_reveal] *)

(** X13. [fulfill_reveal] writes one tile slot at most and nothing else: the
    other slots, the pot, the solved flag, the winner and the commitments are
    as before, whether the call is done or not, and it transfers nothing. *)
Theorem fulfill_reveal_writes_one_slot cap (i : u64) decrypted_key c g :
  let call := FulfillReveal cap i decrypted_key c in
  (forall j, j <> N.to_nat i ->
             decrypted_tile_keys (step call g) !! j
             = decrypted_tile_keys g !! j)
  /\ pot (step call g) = pot g
  /\ is_solved (step call g) = is_solved g
  /\ winner (step call g) = winner g
  /\ guess_commitments (step call g) = guess_commitments g
  /\ transferred (commit_effects (exec call g)) = [].
Proof.
  intros call. unfold step, call, exec, run. fold (entering g c).
  destruct (fulfill_reveal_cases cap i decrypted_key (entering g c))
    as [[_ ->] | [(key & _ & ->) | [_ ->]]]; cbn; repeat split.
  intros j Hne. now rewrite list_lookup_insert_ne.
Qed.

(** * More on the commitments *)

Lemma commit_guess_step submission_hash clock c g :
  is_solved g = false ->
  exec (CommitGuess submission_hash clock c) g
  = Done tt
      {| refs :=
           with_commitment (sender c)
             {| submission_hash := submission_hash;
                timestamp_ms := clock_timestamp_ms clock |} g;
         ctx := c; effects := no_effects |}.
Proof. intros Hsolved. now apply (commit_guess_stores (entering g c)). Qed.

(** X14. On an unsolved game [commit_guess] is always done, whatever the
    bytes submitted and whether or not the sender had a commitment: the
    sender's entry is then the submitted digest with the clock's timestamp,
    no other field of the game changes, and there is no event and no
    transfer. *)
Theorem commit_guess_records_the_digest submission_hash clock c g :
  is_solved g = false ->
  let call := CommitGuess submission_hash clock c in
  succeeds (exec call g)
  /\ entries (guess_commitments (step call g)) !! sender c
     = Some {| submission_hash := submission_hash;
               timestamp_ms := clock_timestamp_ms clock |}
  /\ step call g
     = set_guess_commitments (guess_commitments (step call g)) g
  /\ commit_effects (exec call g) = no_effects.
Proof.
  intros Hsolved call. unfold succeeds, step, call.
  rewrite (commit_guess_step _ _ _ _ Hsolved). cbn.
  split; [reflexivity | ]. split; [apply lookup_insert_eq | ].
  split; reflexivity.
Qed.

Lemma commit_guess_records_the_digest_witness :
  entries (guess_commitments Sample.committed) !! Sample.PLAYER_B
  = Some Sample.commitment_b.
Proof.
  apply (commit_guess_records_the_digest
           (keccak256 (bytes_of "sui" ++ bytes_of "my_secret_salt"))
           Sample.clock (Sample.tx Sample.PLAYER_B "commit") Sample.revealed).
  vm_compute. reflexivity.
Defined.

(** X15. The last commitment wins: a sender who commits twice on an unsolved
    game leaves the game exactly as if only the second commitment had been
    made. *)
Theorem last_commit_wins hash1 clock1 c1 hash2 clock2 c2 g :
  is_solved g = false ->
  sender c1 = sender c2 ->
  step (CommitGuess hash2 clock2 c2) (step (CommitGuess hash1 clock1 c1) g)
  = step (CommitGuess hash2 clock2 c2) g.
Proof.
  intros Hsolved Hsame. unfold step.
  rewrite (commit_guess_step hash1 clock1 c1 g Hsolved). cbn [commit refs].
  rewrite (commit_guess_step hash2 clock2 c2 g Hsolved).
  rewrite commit_guess_step by exact Hsolved.
  cbn. unfold with_commitment, set_guess_commitments. cbn.
  rewrite Hsame. now rewrite insert_insert_eq.
Qed.

Lemma last_commit_wins_witness :
  step Sample.commit_sui
    (step (CommitGuess (keccak256 (bytes_of "moon")) Sample.clock
             (Sample.tx Sample.PLAYER_B "first")) Sample.revealed)
  = Sample.committed.
Proof.
  apply (last_commit_wins (keccak256 (bytes_of "moon")) Sample.clock
           (Sample.tx Sample.PLAYER_B "first")
           (keccak256 (bytes_of "sui" ++ bytes_of "my_secret_salt"))
           Sample.clock (Sample.tx Sample.PLAYER_B "commit") Sample.revealed).
  - vm_compute. reflexivity.
  - reflexivity.
Defined.

Lemma change_by_other call g p :
  caller call <> p ->
  entries (guess_commitments (step call g)) !! p
  = entries (guess_commitments g) !! p.
Proof.
  intros Hother.
  destruct call as [tile_index payment c | cap tile_index decrypted_key c
                    | submission_hash clock c
                    | answer_input user_salt game_salt clock c];
    cbn in Hother; unfold step, exec, run; fold (entering g c).
  - destruct (request_reveal_cases tile_index payment (entering g c))
      as [[code ->] | [-> | [-> | (_ & _ & _ & _ & ->)]]]; reflexivity.
  - destruct (fulfill_reveal_cases cap tile_index decrypted_key (entering g c))
      as [[_ ->] | [(key & _ & ->) | [_ ->]]]; reflexivity.
  - destruct (is_solved g) eqn:Hsolved.
    + now rewrite (commit_guess_already_solved (entering g c)).
    + rewrite (commit_guess_stores (entering g c)) by assumption. cbn.
      now apply lookup_insert_ne.
  - destruct (is_solved g) eqn:Hsolved.
    { now rewrite (solve_already_solved (entering g c)). }
    destruct (solve_cases answer_input user_salt game_salt clock
                (entering g c) Hsolved)
      as [[_ ->] | [(k & _ & _ & ->) | (k & _ & _ & _ & ->)]];
      cbn; try reflexivity.
    now apply lookup_delete_ne.
Qed.

Lemma steps_by_others calls g p :
  Forall (fun call => caller call <> p) calls ->
  entries (guess_commitments (steps calls g)) !! p
  = entries (guess_commitments g) !! p.
Proof.
  intros Hothers. induction calls as [ | call calls IH] using rev_ind.
  - reflexivity.
  - apply Forall_app in Hothers. destruct Hothers as [Hcalls Hcall].
    rewrite steps_snoc, change_by_other.
    + now apply IH.
    + now inversion Hcall.
Qed.

(** X16. A player's commitment is out of reach of everyone else: calls sent
    by other addresses, of any entry point and done or not, neither add,
    change nor remove the entry of player [p]. *)
Theorem commitment_is_out_of_reach calls g p :
  Forall (fun call => caller call <> p) calls ->
  entries (guess_commitments (steps calls g)) !! p
  = entries (guess_commitments g) !! p.
Proof. exact (steps_by_others calls g p). Qed.

Lemma commitment_is_out_of_reach_witness :
  entries (guess_commitments
             (steps [Sample.request_0;
                     CommitGuess (keccak256 (bytes_of "moon")) Sample.clock
                       (Sample.tx Sample.PLAYER_A "commit")]
                Sample.committed))
    !! Sample.PLAYER_B
  = entries (guess_commitments Sample.committed) !! Sample.PLAYER_B.
Proof.
  apply commitment_is_out_of_reach.
  repeat constructor; vm_compute; discriminate.
Defined.

(** X17. Commit, then reveal.  A player commits [keccak256 (answer ‖ salt)]
    on an unsolved game whose [answer_hash] is [keccak256 answer]; others
    then make any calls that leave the game unsolved.  The player's [solve]
    with that answer and salt is done, whatever the clock shows (no delay
    after the commitment is asked for) and whatever the game salt: the
    player is the winner and is sent all the pot holds at that point. *)
Theorem commit_then_solve_wins answer salt game_salt clock1 c1 clock2 c2
    others g :
  is_solved g = false ->
  keccak256 answer = answer_hash g ->
  sender c2 = sender c1 ->
  Forall (fun call => caller call <> sender c1) others ->
  let g1 := steps others (step (CommitGuess (keccak256 (answer ++ salt))
                                  clock1 c1) g) in
  is_solved g1 = false ->
  let call := Solve answer salt game_salt clock2 c2 in
  succeeds (exec call g1)
  /\ winner (step call g1) = Some (sender c1)
  /\ transferred (commit_effects (exec call g1))
     = [(CoinObject {| coin_id := fresh_id c2; balance := pot g1 |},
         sender c1)].
Proof.
  intros Hsolved Hanswer Hsame Hothers g1 Hunsolved call.
  assert (Hentry : entries (guess_commitments g1) !! sender c2
                   = Some {| submission_hash := keccak256 (answer ++ salt);
                             timestamp_ms := clock_timestamp_ms clock1 |}).
  { unfold g1. rewrite Hsame, steps_by_others by exact Hothers.
    unfold step. rewrite (commit_guess_step _ _ _ _ Hsolved). cbn.
    apply lookup_insert_eq. }
  assert (Hhash : keccak256 answer = answer_hash g1).
  { unfold g1.
    destruct (steps_fixed_fields others
                (step (CommitGuess (keccak256 (answer ++ salt)) clock1 c1) g))
      as (_ & _ & -> & _).
    destruct (change_fixed_fields _ _
                (step_change (CommitGuess (keccak256 (answer ++ salt))
                                clock1 c1) g))
      as (_ & _ & -> & _).
    exact Hanswer. }
  assert (Heq : exec call g1
                = Done tt
                    {| refs := settled (sender c2) g1;
                       ctx := count_id c2;
                       effects :=
                         add_event
                           (GameSolved (uid g1) (sender c2) (value (pot g1)))
                           (add_transfer
                              (CoinObject (prize_coin (entering g1 c2)))
                              (sender c2) no_effects) |}).
  { unfold call, exec, run.
    apply (solve_wins (entering g1 c2)) with
      (c := {| submission_hash := keccak256 (answer ++ salt);
               timestamp_ms := clock_timestamp_ms clock1 |});
      try assumption; reflexivity. }
  unfold succeeds, step. rewrite Heq, <- Hsame. cbn.
  repeat split.
Qed.

Lemma commit_then_solve_wins_witness :
  winner (step Sample.solve_sui
            (steps [RequestReveal 1 (Sample.coin TILE_PRICE)
                      (Sample.tx Sample.PLAYER_A "request")]
               (step Sample.commit_sui Sample.revealed)))
  = Some Sample.PLAYER_B.
Proof.
  apply (commit_then_solve_wins
           (bytes_of "sui") (bytes_of "my_secret_salt") [] Sample.clock
           (Sample.tx Sample.PLAYER_B "commit") Sample.clock
           (Sample.tx Sample.PLAYER_B "reveal")
           [RequestReveal 1 (Sample.coin TILE_PRICE)
              (Sample.tx Sample.PLAYER_A "request")]
           Sample.revealed).
  - vm_compute. reflexivity.
  - vm_compute. reflexivity.
  - reflexivity.
  - repeat constructor. vm_compute. discriminate.
  - vm_compute. reflexivity.
Defined.

(** * Which failures there are *)

(** X18. On a game that exists a call fails only in these ways:
    [request_reveal] with one of its four abort codes or on the overflow of
    the pot, [fulfill_reveal] in the vector borrow and only for an index of
    100 or more, [commit_guess] with [EGameAlreadySolved], [solve] with
    [EGameAlreadySolved], [ENoCommitmentFound] or [EIncorrectAnswer].  So no
    call aborts with [ECommitmentTooFresh], and none aborts inside
    [option::fill], [table::add], [table::remove] or [balance::split]. *)
Theorem failures_of_an_existing_game call g f :
  reachable g ->
  failure_of (exec call g) = Some f ->
  match call with
  | RequestReveal _ _ _ =>
      f = MoveAbort mosaic EGameAlreadySolved
      \/ f = MoveAbort mosaic EInvalidPayment
      \/ f = MoveAbort mosaic EInvalidTileIndex
      \/ f = MoveAbort mosaic ETileAlreadyRevealed
      \/ f = ArithmeticError
  | FulfillReveal _ tile_index _ _ =>
      f = VectorIndexOutOfBounds /\ TOTAL_TILES <= tile_index
  | CommitGuess _ _ _ =>
      f = MoveAbort mosaic EGameAlreadySolved
  | Solve _ _ _ _ _ =>
      f = MoveAbort mosaic EGameAlreadySolved
      \/ f = MoveAbort mosaic ENoCommitmentFound
      \/ f = MoveAbort mosaic EIncorrectAnswer
  end.
Proof.
  intros Hreach.
  destruct call as [tile_index payment c | cap tile_index decrypted_key c
                    | submission_hash clock c
                    | answer_input user_salt game_salt clock c];
    unfold exec, run; fold (entering g c).
  - destruct (is_solved g) eqn:Hsolved.
    { rewrite (request_reveal_already_solved (entering g c)) by assumption.
      intros [= <-]. tauto. }
    destruct (decide (coin_value payment = TILE_PRICE)) as [Hpay | Hpay].
    2: { rewrite (request_reveal_wrong_payment (entering g c)) by assumption.
         intros [= <-]. tauto. }
    destruct (N.lt_ge_cases tile_index TOTAL_TILES) as [Hidx | Hidx].
    2: { rewrite (request_reveal_bad_index (entering g c)) by assumption.
         intros [= <-]. tauto. }
    destruct (reachable_slot g tile_index Hreach Hidx) as [[key | ] Hslot].
    { rewrite (request_reveal_already_revealed (entering g c)) with (key := key)
        by assumption.
      intros [= <-]. tauto. }
    destruct (N.le_gt_cases (value (pot g) + TILE_PRICE) MAX_U64)
      as [Hfit | Hover].
    + rewrite (request_reveal_paid (entering g c)) by assumption.
      discriminate.
    + rewrite (request_reveal_overflow (entering g c)) by assumption.
      intros [= <-]. tauto.
  - destruct (fulfill_reveal_cases cap tile_index decrypted_key (entering g c))
      as [[Hnone ->] | [(key & _ & ->) | [_ ->]]]; try discriminate.
    intros [= <-]. split; [reflexivity | ].
    destruct (N.lt_ge_cases tile_index TOTAL_TILES) as [Hidx | Hidx];
      [ | exact Hidx].
    destruct (reachable_slot g tile_index Hreach Hidx) as [slot Hslot].
    cbn in Hnone. congruence.
  - destruct (is_solved g) eqn:Hsolved.
    + rewrite (commit_guess_already_solved (entering g c)) by assumption.
      now intros [= <-].
    + rewrite (commit_guess_stores (entering g c)) by assumption.
      discriminate.
  - destruct (is_solved g) eqn:Hsolved.
    { rewrite (solve_already_solved (entering g c)) by assumption.
      intros [= <-]. tauto. }
    destruct (solve_cases answer_input user_salt game_salt clock
                (entering g c) Hsolved)
      as [[_ ->] | [(k & _ & _ & ->) | (k & _ & _ & _ & ->)]];
      try discriminate; intros [= <-]; tauto.
Qed.

Lemma failures_of_an_existing_game_witness :
  reachable Sample.committed
  /\ failure_of (exec Sample.solve_moon Sample.committed)
     = Some (MoveAbort mosaic EIncorrectAnswer)
  /\ (MoveAbort mosaic EIncorrectAnswer = MoveAbort mosaic EGameAlreadySolved
      \/ MoveAbort mosaic EIncorrectAnswer = MoveAbort mosaic ENoCommitmentFound
      \/ MoveAbort mosaic EIncorrectAnswer = MoveAbort mosaic EIncorrectAnswer).
Proof.
  assert (Hfails : failure_of (exec Sample.solve_moon Sample.committed)
                   = Some (MoveAbort mosaic EIncorrectAnswer))
    by (vm_compute; reflexivity).
  split; [exact sample_committed_reachable | ].
  split; [exact Hfails | ].
  exact (failures_of_an_existing_game Sample.solve_moon Sample.committed _
           sample_committed_reachable Hfails).
Defined.

(** * Digests of the wrong length *)

Lemma round_length st rc : length (Keccak.round st rc) = 25%nat.
Proof.
  unfold Keccak.round, Keccak.iota.
  assert (Hchi : length (Keccak.chi (Keccak.rho_pi (Keccak.theta st))) = 25%nat)
    by (unfold Keccak.chi; now rewrite length_map).
  destruct (Keccak.chi (Keccak.rho_pi (Keccak.theta st))); [discriminate | ].
  exact Hchi.
Qed.

Lemma keccak_f_length st : length (Keccak.keccak_f st) = 25%nat.
Proof.
  unfold Keccak.keccak_f.
  change Keccak.round_constants
    with (removelast Keccak.round_constants ++ [0x8000000080008008]).
  rewrite fold_left_app. cbn [fold_left]. apply round_length.
Qed.

Lemma absorb_length fuel st msg :
  length st = 25%nat -> length (Keccak.absorb fuel st msg) = 25%nat.
Proof.
  revert st msg. induction fuel as [ | fuel IH]; intros st msg Hst.
  - destruct msg; exact Hst.
  - destruct msg as [ | x msg]; [exact Hst | ].
    cbn [Keccak.absorb]. apply IH. apply keccak_f_length.
Qed.

Lemma bytes_of_lane_length n l : length (Keccak.bytes_of_lane n l) = n.
Proof.
  revert l. induction n as [ | n IH]; intros l; cbn; [reflexivity | ].
  now rewrite IH.
Qed.

Lemma keccak256_length data : length (keccak256 data) = 32%nat.
Proof.
  unfold keccak256, Keccak.digest256. rewrite length_map.
  set (st := Keccak.absorb _ _ _).
  assert (Hst : length st = 25%nat)
    by (apply absorb_length; reflexivity).
  destruct st as [ | a [ | b [ | c [ | d st]]]]; try discriminate.
  cbn [take flat_map]. rewrite !length_app, !bytes_of_lane_length.
  reflexivity.
Qed.

Lemma never_solved_step call g :
  length (answer_hash g) <> 32%nat ->
  is_solved g = false ->
  is_solved (step call g) = false.
Proof.
  intros Hlen Hunsolved.
  destruct call as [tile_index payment c | cap tile_index decrypted_key c
                    | submission_hash clock c
                    | answer_input user_salt game_salt clock c];
    unfold step, exec, run; fold (entering g c).
  - destruct (request_reveal_cases tile_index payment (entering g c))
      as [[code ->] | [-> | [-> | (_ & _ & _ & _ & ->)]]]; exact Hunsolved.
  - destruct (fulfill_reveal_cases cap tile_index decrypted_key (entering g c))
      as [[_ ->] | [(key & _ & ->) | [_ ->]]]; exact Hunsolved.
  - rewrite (commit_guess_stores (entering g c)) by assumption.
    exact Hunsolved.
  - destruct (solve_cases answer_input user_salt game_salt clock
                (entering g c) Hunsolved)
      as [[_ ->] | [(k & _ & _ & ->) | (k & _ & _ & Hans & ->)]];
      try exact Hunsolved.
    contradiction Hlen. cbn in Hans. rewrite <- Hans.
    apply keccak256_length.
Qed.

(** X19. [create_game] takes any bytes as the answer digest.  When the
    digest is not 32 bytes long, the length of a Keccak-256 output, no
    [solve] is ever done: the game stays unsolved through any sequence of
    calls, nothing is ever handed out, and every payment made remains in the
    pot. *)
Theorem short_digest_locks_the_pot calls g :
  length (answer_hash g) <> 32%nat ->
  is_solved g = false ->
  is_solved (steps calls g) = false
  /\ total_withdrawn calls g = 0
  /\ value (pot (steps calls g)) = value (pot g) + total_deposited calls g.
Proof.
  intros Hlen Hunsolved.
  assert (Hend : is_solved (steps calls g) = false).
  { induction calls as [ | call calls IH] using rev_ind; [exact Hunsolved | ].
    rewrite steps_snoc. apply never_solved_step; [ | exact IH].
    destruct (steps_fixed_fields calls g) as (_ & _ & -> & _). exact Hlen. }
  pose proof (unsolved_nothing_withdrawn calls g Hend) as Hnone.
  pose proof (conservation calls g) as Hsum.
  split; [exact Hend | ]. split; [exact Hnone | lia].
Qed.

Lemma short_digest_locks_the_pot_witness :
  length (answer_hash Stuck.created) <> 32%nat
  /\ is_solved (steps Stuck.calls Stuck.created) = false
  /\ value (pot (steps Stuck.calls Stuck.created))
     = value (pot Stuck.created) + total_deposited Stuck.calls Stuck.created.
Proof.
  assert (Hlen : length (answer_hash Stuck.created) <> 32%nat)
    by (vm_compute; discriminate).
  destruct (short_digest_locks_the_pot Stuck.calls Stuck.created Hlen eq_refl)
    as (Hunsolved & _ & Hpot).
  split; [exact Hlen | ]. split; [exact Hunsolved | exact Hpot].
Defined.

(** * The capability *)

Lemma call_transfers call g o recipient :
  In (o, recipient) (transferred (commit_effects (exec call g))) ->
  exists coin, o = CoinObject coin /\ recipient = caller call.
Proof.
  destruct call as [tile_index payment c | cap tile_index decrypted_key c
                    | submission_hash clock c
                    | answer_input user_salt game_salt clock c];
    unfold exec, run; fold (entering g c).
  - destruct (request_reveal_cases tile_index payment (entering g c))
      as [[code ->] | [-> | [-> | (_ & _ & _ & _ & ->)]]]; intros [].
  - destruct (fulfill_reveal_cases cap tile_index decrypted_key (entering g c))
      as [[_ ->] | [(key & _ & ->) | [_ ->]]]; intros [].
  - destruct (is_solved g) eqn:Hsolved.
    + rewrite (commit_guess_already_solved (entering g c)) by assumption.
      intros [].
    + rewrite (commit_guess_stores (entering g c)) by assumption. intros [].
  - destruct (is_solved g) eqn:Hsolved.
    { rewrite (solve_already_solved (entering g c)) by assumption. intros []. }
    destruct (solve_cases answer_input user_salt game_salt clock
                (entering g c) Hsolved)
      as [[_ ->] | [(k & _ & _ & ->) | (k & _ & _ & _ & ->)]];
      try (now intros []).
    cbn. intros [[= <- <-] | []]. eexists. split; reflexivity.
Qed.

Lemma create_game_transfers_nothing digest blob_id keys ids c :
  transferred (commit_effects (run (create_game digest blob_id keys ids) tt c))
  = [].
Proof.
  rewrite create_game_outcome.
  destruct (_ || _); [reflexivity | ].
  destruct (forallb _ _); reflexivity.
Qed.

(** X20. The capability is made once.  [init] creates one [OracleCap], with
    the first id of the publishing transaction, and transfers it to the
    sender; it shares nothing and emits nothing.  [create_game] transfers
    nothing at all, and whatever a call on a game transfers is a coin, sent
    to the sender of that call. *)
Theorem oracle_cap_is_made_once :
  (forall c,
     run init tt c
     = Done tt
         {| refs := tt; ctx := count_id c;
            effects :=
              {| events := [];
                 transferred :=
                   [(OracleCapObject {| cap_id := fresh_id c |}, sender c)];
                 shared := []; deleted := [] |} |})
  /\ (forall digest blob_id keys ids c,
        transferred
          (commit_effects (run (create_game digest blob_id keys ids) tt c))
        = [])
  /\ (forall call g o recipient,
        In (o, recipient) (transferred (commit_effects (exec call g))) ->
        exists coin, o = CoinObject coin /\ recipient = caller call).
Proof.
  split; [reflexivity | ]. split.
  - exact create_game_transfers_nothing.
  - exact call_transfers.
Qed.

(** * The events of a game *)

Lemma trace_events_snoc calls call g :
  trace_events (calls ++ [call]) g
  = trace_events calls g
    ++ events (commit_effects (exec call (steps calls g))).
Proof.
  revert g. induction calls as [ | first calls IH]; intros g.
  - cbn. now rewrite app_nil_r.
  - cbn [app trace_events]. rewrite IH, steps_cons. now rewrite app_assoc.
Qed.

(** The events of one call, with what the call does to the game. *)
Lemma step_events call g :
  (events (commit_effects (exec call g)) = []
   /\ deposited call g = 0
   /\ (step call g = g
       \/ (exists who cm, step call g = with_commitment who cm g
                          /\ is_solved g = false)))
  \/ (exists i,
        events (commit_effects (exec call g))
        = [TileRevealRequested (uid g) i (caller call)]
        /\ deposited call g = TILE_PRICE
        /\ is_solved g = false
        /\ step call g = set_pot {| value := value (pot g) + TILE_PRICE |} g)
  \/ (exists (i : u64) key,
        events (commit_effects (exec call g)) = [TileRevealed (uid g) i key]
        /\ deposited call g = 0
        /\ decrypted_tile_keys g !! N.to_nat i = Some None
        /\ step call g
           = set_decrypted_tile_keys
               (<[N.to_nat i := Some key]> (decrypted_tile_keys g)) g)
  \/ (events (commit_effects (exec call g))
      = [GameSolved (uid g) (caller call) (value (pot g))]
      /\ deposited call g = 0
      /\ is_solved g = false
      /\ step call g = settled (caller call) g).
Proof.
  destruct call as [tile_index payment c | cap tile_index decrypted_key c
                    | submission_hash clock c
                    | answer_input user_salt game_salt clock c];
    unfold step, deposited, exec, run; fold (entering g c).
  - destruct (request_reveal_cases tile_index payment (entering g c))
      as [[code ->] | [-> | [-> | (Hsolved & Hpay & _ & _ & ->)]]];
      try (left; repeat split; left; reflexivity).
    right; left. exists tile_index. cbn. now repeat split.
  - destruct (fulfill_reveal_cases cap tile_index decrypted_key (entering g c))
      as [[_ ->] | [(key & _ & ->) | [Hslot ->]]];
      try (left; repeat split; left; reflexivity).
    right; right; left. exists tile_index, decrypted_key. cbn.
    now repeat split.
  - left. destruct (is_solved g) eqn:Hsolved.
    + rewrite (commit_guess_already_solved (entering g c)) by assumption.
      repeat split. left; reflexivity.
    + rewrite (commit_guess_stores (entering g c)) by assumption.
      repeat split. right. eexists _, _. now split.
  - destruct (is_solved g) eqn:Hsolved.
    { rewrite (solve_already_solved (entering g c)) by assumption.
      left; repeat split; left; reflexivity. }
    destruct (solve_cases answer_input user_salt game_salt clock
                (entering g c) Hsolved)
      as [[_ ->] | [(k & _ & _ & ->) | (k & _ & _ & _ & ->)]];
      try (left; repeat split; left; reflexivity).
    do 3 right. cbn. now repeat split.
Qed.

Lemma solved_trace calls g :
  is_solved g = true ->
  filter is_settlement (trace_events calls g) = []
  /\ total_deposited calls g = 0.
Proof.
  revert g. induction calls as [ | call calls IH]; intros g Hsolved.
  - now split.
  - cbn [trace_events total_deposited]. rewrite filter_app.
    pose proof (change_is_solved _ _ (step_change call g) Hsolved) as Hnext.
    destruct (IH _ Hnext) as [-> ->].
    destruct (step_events call g)
      as [(-> & -> & _) | [(i & _ & _ & Hno & _)
         | [(i & key & -> & -> & _) | (_ & _ & Hno & _)]]];
      try congruence; now split.
Qed.

Lemma revealed_trace calls g (i : u64) key :
  decrypted_tile_keys g !! N.to_nat i = Some (Some key) ->
  filter (reveals_tile i) (trace_events calls g) = [].
Proof.
  revert g. induction calls as [ | call calls IH]; intros g Hslot.
  - reflexivity.
  - cbn [trace_events]. rewrite filter_app.
    rewrite (IH _ (change_revealed_slot _ _ _ _ (step_change call g) Hslot)).
    destruct (step_events call g)
      as [(-> & _) | [(j & -> & _)
         | [(j & key' & -> & _ & Hnone & _) | (-> & _)]]];
      try reflexivity.
    cbn. rewrite decide_False; [reflexivity | ].
    unfold reveals_tile. intros Heq. apply Is_true_true, N.eqb_eq in Heq.
    subst j. congruence.
Qed.

(** X21. One settlement per game.  Over any sequence of calls on an unsolved
    game there is no [GameSolved] event while the game is unsolved, and
    exactly one once it is solved: it names the game, the winner the game
    then records, and as prize what the pot held at the start plus all that
    was paid in. *)
Theorem one_settlement calls g :
  is_solved g = false ->
  filter is_settlement (trace_events calls g)
  = if is_solved (steps calls g)
    then match winner (steps calls g) with
         | Some w =>
             [GameSolved (uid g) w (value (pot g) + total_deposited calls g)]
         | None => []
         end
    else [].
Proof.
  revert g. induction calls as [ | call calls IH]; intros g Hunsolved.
  - cbn. now rewrite Hunsolved.
  - rewrite steps_cons. cbn [trace_events total_deposited].
    rewrite filter_app.
    destruct (step_events call g)
      as [(-> & -> & [Hstep | (who & cm & Hstep & _)])
         | [(i & -> & -> & _ & Hstep)
         | [(i & key & -> & -> & _ & Hstep)
         | (-> & -> & _ & Hstep)]]]; rewrite Hstep.
    + now rewrite IH.
    + now rewrite IH.
    + rewrite IH by exact Hunsolved. cbn.
      now rewrite N.add_assoc.
    + now rewrite IH.
    + assert (Hsolved : is_solved (settled (caller call) g) = true)
        by reflexivity.
      destruct (solved_trace calls _ Hsolved) as [-> ->].
      destruct (steps_solved_frozen calls _ Hsolved) as (-> & -> & _).
      cbn. now rewrite !N.add_0_r.
Qed.

Lemma one_settlement_witness :
  filter is_settlement
    (trace_events
       [Sample.request_0; Sample.fulfill_0; Sample.commit_sui;
        Sample.solve_moon; Sample.solve_sui; Sample.solve_sui]
       Sample.created)
  = [GameSolved (uid Sample.created) Sample.PLAYER_B TILE_PRICE].
Proof.
  rewrite (one_settlement
             [Sample.request_0; Sample.fulfill_0; Sample.commit_sui;
              Sample.solve_moon; Sample.solve_sui; Sample.solve_sui]
             Sample.created eq_refl).
  vm_compute. reflexivity.
Defined.

(** X22. One reveal per tile, and the state tells which.  Over any sequence
    of calls starting with tile [i] unrevealed there is no [TileRevealed]
    event for [i] while its slot is empty, and exactly one once it is
    filled, carrying the very key the slot holds: the key of the first
    [fulfill_reveal] for [i], later ones being silent. *)
Theorem one_reveal_per_tile calls g (i : u64) :
  decrypted_tile_keys g !! N.to_nat i = Some None ->
  filter (reveals_tile i) (trace_events calls g)
  = match decrypted_tile_keys (steps calls g) !! N.to_nat i with
    | Some (Some key) => [TileRevealed (uid g) i key]
    | _ => []
    end.
Proof.
  revert g. induction calls as [ | call calls IH]; intros g Hslot.
  - cbn. now rewrite Hslot.
  - rewrite steps_cons. cbn [trace_events]. rewrite filter_app.
    destruct (step_events call g)
      as [(-> & _ & [Hstep | (who & cm & Hstep & _)])
         | [(j & -> & _ & _ & Hstep)
         | [(j & key & -> & _ & Hnone & Hstep)
         | (-> & _ & _ & Hstep)]]]; rewrite Hstep.
    + now rewrite IH.
    + now rewrite IH.
    + now rewrite IH.
    + destruct (N.eqb_spec i j) as [<- | Hne].
      * assert (Hfilled :
                  decrypted_tile_keys
                    (set_decrypted_tile_keys
                       (<[N.to_nat i := Some key]> (decrypted_tile_keys g)) g)
                    !! N.to_nat i = Some (Some key)).
        { cbn. apply list_lookup_insert_eq. eapply lookup_lt_Some.
          exact Hslot. }
        rewrite (revealed_trace calls _ i key Hfilled).
        rewrite (steps_revealed_slot calls _ _ _ Hfilled).
        cbn. rewrite decide_True; [reflexivity | ].
        unfold reveals_tile. now rewrite N.eqb_refl.
      * rewrite IH.
        -- cbn. rewrite decide_False; [reflexivity | ].
           unfold reveals_tile. intros Heq.
           apply Is_true_true, N.eqb_eq in Heq. contradiction.
        -- cbn. rewrite list_lookup_insert_ne; [exact Hslot | ].
           intros Heq. apply N2Nat.inj in Heq. congruence.
    + now rewrite IH.
Qed.

Lemma one_reveal_per_tile_witness :
  filter (reveals_tile 0)
    (trace_events
       [Sample.request_0; Sample.fulfill_0;
        FulfillReveal Sample.cap 0 (bytes_of "another key")
          (Sample.tx Sample.ADMIN "again");
        FulfillReveal Sample.cap 1 (bytes_of "key of tile 1")
          (Sample.tx Sample.ADMIN "next")]
       Sample.created)
  = [TileRevealed (uid Sample.created) 0 (bytes_of "real_aes_key_for_tile_0")].
Proof.
  rewrite (one_reveal_per_tile _ Sample.created 0 eq_refl).
  vm_compute. reflexivity.
Defined.

(** X23. Every payment is announced, and nothing else is: over any sequence
    of calls on any game, what was paid into the pot is [TILE_PRICE] times
    the number of [TileRevealRequested] events. *)
Theorem every_payment_is_announced calls g :
  total_deposited calls g
  = TILE_PRICE
    * N.of_nat (length (filter is_request (trace_events calls g))).
Proof.
  revert g. induction calls as [ | call calls IH]; intros g.
  - reflexivity.
  - cbn [trace_events total_deposited]. rewrite filter_app, length_app, IH.
    destruct (step_events call g)
      as [(-> & -> & _) | [(j & -> & -> & _)
         | [(j & key & -> & -> & _) | (-> & -> & _)]]];
      unfold TILE_PRICE; cbn -[N.mul N.add N.of_nat];
      repeat case_decide; try tauto; cbn [length]; lia.
Qed.

Lemma oracle_cap_is_made_once_witness :
  exists coin,
    CoinObject {| coin_id := fresh_id (Sample.tx Sample.PLAYER_B "reveal");
                  balance := {| value := TILE_PRICE |} |}
    = CoinObject coin
    /\ Sample.PLAYER_B = caller Sample.solve_sui.
Proof.
  apply (proj2 (proj2 oracle_cap_is_made_once) Sample.solve_sui
           Sample.committed).
  vm_compute. left. reflexivity.
Defined.
